(** * SchemaFlow: schema inference, versioning and diff

    A shallow embedding of [Backend Files/infer.js] ([typeName], [collect],
    [buildSchema], [deepDifferent], [inferAndMaybeCreateVersion]) and of
    [diffSchemas] from [Backend Files/routes.js], with the properties of the
    specification stated and proved over it; then of [clean] and the
    plain-text and error payloads of [extractFile], and of [escapeHtml] and
    [payloadToStore] of routes.js, with further properties of the code.

    Representation choices.
    - A JavaScript value is a tree ([value]); a number is an exact rational,
      NaN or an infinity, which is all [Number.isInteger] looks at.
    - A plain object is the list of its own enumerable properties in the order
      [Object.keys] reports them ([obj V]).  Reading a key returns the first
      binding, writing replaces the binding in place or appends a new one.
      Keys are distinct in every object the program builds ([own_set] keeps
      them so).  The statistics map is a plain [{}]: reading a key it does
      not own finds the member of [Object.prototype] of that name, if there
      is one ([inherited]).  The place of canonical array-index keys, which
      JavaScript enumerates first, is not modelled: a new key comes last.
    - A thrown [TypeError] is the result [None].
    - A [Set] of strings is the list of its members in insertion order.
    - The two collections of [db.js] are lists of documents in insertion
      order; an [await] is an atomic step on that state. *)

From Stdlib Require Import List String Ascii Bool Arith Lia ZArith QArith
  DecimalNat DecimalString Permutation.
Import ListNotations.
Open Scope string_scope.
Open Scope list_scope.
Open Scope nat_scope.

(** ** JavaScript values *)

Inductive jsnumber : Type :=
| Finite (q : Q)
| NaN
| Infinity (negative : bool).

Unset Elimination Schemes.
Inductive value : Type :=
| Undefined
| Null
| Bool (b : bool)
| Num (n : jsnumber)
| Str (s : string)
| Arr (items : list value)
| Obj (props : list (string * value)).
Set Elimination Schemes.

(** Induction over values, with the hypotheses for the nested lists. *)
Fixpoint value_ind (P : value -> Prop)
    (HU : P Undefined) (HN : P Null)
    (HB : forall b, P (Bool b)) (HNum : forall n, P (Num n))
    (HS : forall s, P (Str s))
    (HA : forall items, Forall P items -> P (Arr items))
    (HO : forall props, Forall (fun kv => P (snd kv)) props -> P (Obj props))
    (v : value) {struct v} : P v :=
  let rec := value_ind P HU HN HB HNum HS HA HO in
  match v with
  | Undefined => HU
  | Null => HN
  | Bool b => HB b
  | Num n => HNum n
  | Str s => HS s
  | Arr items =>
      HA items
        ((fix all (l : list value) : Forall P l :=
            match l with
            | [] => Forall_nil P
            | x :: l' => Forall_cons x (rec x) (all l')
            end) items)
  | Obj props =>
      HO props
        ((fix all (l : list (string * value)) : Forall (fun kv => P (snd kv)) l :=
            match l with
            | [] => Forall_nil _
            | kv :: l' => Forall_cons kv (rec (snd kv)) (all l')
            end) props)
  end.

(** [v === null || v === undefined] *)
Definition nullish (v : value) : bool :=
  match v with
  | Null | Undefined => true
  | _ => false
  end.

(** The values that are neither absent nor structured. *)
Definition scalar (v : value) : bool :=
  match v with
  | Bool _ | Num _ | Str _ => true
  | _ => false
  end.

(** [Number.isInteger]: a number, finite and without fractional part. *)
Definition Number_isInteger (v : value) : bool :=
  match v with
  | Num (Finite q) => Z.eqb (Z.modulo (Qnum q) (Zpos (Qden q))) 0
  | _ => false
  end.

(** The [typeof] operator on the values of the model. *)
Definition typeof (v : value) : string :=
  match v with
  | Undefined => "undefined"
  | Null => "object"
  | Bool _ => "boolean"
  | Num _ => "number"
  | Str _ => "string"
  | Arr _ => "object"
  | Obj _ => "object"
  end.

Definition Array_isArray (v : value) : bool :=
  match v with
  | Arr _ => true
  | _ => false
  end.

(** [typeName] of infer.js. *)
Definition typeName (v : value) : string :=
  if nullish v then "null"
  else if Array_isArray v then "array"
  else if String.eqb (typeof v) "object" then "object"
  else if Number_isInteger v then "integer"
  else typeof v.

(** ** Plain objects used as maps *)

Definition obj (V : Type) : Type := list (string * V).

Fixpoint own_get {V : Type} (k : string) (o : obj V) : option V :=
  match o with
  | [] => None
  | (k', v) :: o' => if String.eqb k' k then Some v else own_get k o'
  end.

(** [o[k] = v]: overwrite in place, or add [k] as the newest property. *)
Fixpoint own_set {V : Type} (k : string) (v : V) (o : obj V) : obj V :=
  match o with
  | [] => [(k, v)]
  | (k', v') :: o' =>
      if String.eqb k' k then (k', v) :: o' else (k', v') :: own_set k v o'
  end.

Definition Object_keys {V : Type} (o : obj V) : list string := map fst o.

(** [Array.prototype.includes] on an array of strings. *)
Definition includes (l : list string) (k : string) : bool :=
  existsb (String.eqb k) l.

(** [Set.prototype.add] on a set of strings kept in insertion order. *)
Definition Set_add (x : string) (s : list string) : list string :=
  if includes s x then s else s ++ [x].

(** ** StatCollector: [collect] *)

Record stat : Type := mkStat { count : nat; types : list string }.

Definition Stats : Type := obj stat.

Definition fresh_stat : stat := mkStat 0 [].

(** The names a plain object inherits from [Object.prototype]; what each
    names is a function, or for [__proto__] the prototype itself, so all are
    truthy. *)
Definition Object_prototype_names : list string :=
  ["constructor"; "__defineGetter__"; "__defineSetter__"; "hasOwnProperty";
   "__lookupGetter__"; "__lookupSetter__"; "isPrototypeOf";
   "propertyIsEnumerable"; "toString"; "valueOf"; "__proto__";
   "toLocaleString"].

Definition inherited (key : string) : bool := includes Object_prototype_names key.

(** The three statements
      [stats[key] = stats[key] || { count:0, types:new Set() };]
      [stats[key].count++;]
      [stats[key].types.add(tag);]
    when [stats[key]] is, or becomes, an entry of the statistics. *)
Definition record (key tag : string) (stats : Stats) : Stats :=
  let s := match own_get key stats with
           | Some s => s
           | None => fresh_stat
           end in
  own_set key (mkStat (S (count s)) (Set_add tag (types s))) stats.

(** The same three statements on the plain object [stats].  When [key] is
    not one of its own properties and names a member of [Object.prototype],
    [stats[key]] is that member: it is truthy, so it is what the first
    statement keeps; it has no [types], and [.types.add] throws [TypeError].
    (The [count] the second statement has by then left on that member is
    [NaN], which nothing here reads as an entry: it is falsy.) *)
Definition observe (key tag : string) (stats : Stats) : option Stats :=
  match own_get key stats with
  | Some _ => Some (record key tag stats)
  | None => if inherited key then None else Some (record key tag stats)
  end.

(** A string is truthy when it is not empty. *)
Definition truthy (s : string) : bool :=
  match s with
  | EmptyString => false
  | String _ _ => true
  end.

(** [prefix ? `${prefix}.${k}` : k] *)
Definition child_path (prefix k : string) : string :=
  if truthy prefix then prefix ++ "." ++ k else k.

(** [prefix || "value"] *)
Definition leaf_key (prefix : string) : string :=
  if truthy prefix then prefix else "value".

(** [`${path}[]`] *)
Definition element_path (path : string) : string := path ++ "[]".

(** [collect(obj, stats, prefix)] of infer.js; the statistics map is threaded
    through, and an exception ends the call.  The loop over [ps] is the
    [for (const k of Object.keys(obj))], the loop over [its] is the
    [for (const item of v.slice(0,3))], its counter being what is left of the
    slice. *)
Fixpoint collect (o : value) (stats : Stats) (prefix : string) {struct o}
    : option Stats :=
  if nullish o then Some stats
  else if negb (String.eqb (typeof o) "object") || Array_isArray o
  then observe (leaf_key prefix) (typeName o) stats
  else
    match o with
    | Obj props =>
        (fix each_key (ps : list (string * value)) (stats : Stats) {struct ps}
             : option Stats :=
           match ps with
           | [] => Some stats
           | (k, v) :: ps' =>
               let path := child_path prefix k in
               match observe path (typeName v) stats with
               | None => None
               | Some stats1 =>
                   match
                     (if String.eqb (typeof v) "object"
                      then collect v stats1 path
                      else Some stats1)
                   with
                   | None => None
                   | Some stats2 =>
                       match
                         (match v with
                          | Arr items =>
                              (fix each_item (n : nat) (its : list value)
                                   (stats : Stats) {struct its} : option Stats :=
                                 match n, its with
                                 | S n', item :: its' =>
                                     match collect item stats (element_path path) with
                                     | None => None
                                     | Some stats' => each_item n' its' stats'
                                     end
                                 | _, _ => Some stats
                                 end) 3 items stats2
                          | _ => Some stats2
                          end)
                       with
                       | None => None
                       | Some stats3 => each_key ps' stats3
                       end
                   end
               end
           end) props stats
    | _ => Some stats
    end.

(** A loop whose body may throw: the first exception ends it. *)
Fixpoint for_each {A S : Type} (body : S -> A -> option S) (l : list A) (st : S)
    : option S :=
  match l with
  | [] => Some st
  | x :: l' =>
      match body st x with
      | None => None
      | Some st' => for_each body l' st'
      end
  end.

(** The two loops of [collect] as functions of their own. *)
Definition collect_items (path : string) (its : list value) (stats : Stats)
    : option Stats :=
  for_each (fun st item => collect item st (element_path path)) its stats.

Definition collect_field (prefix : string) (stats : Stats) (kv : string * value)
    : option Stats :=
  let path := child_path prefix (fst kv) in
  match observe path (typeName (snd kv)) stats with
  | None => None
  | Some stats1 =>
      match
        (if String.eqb (typeof (snd kv)) "object"
         then collect (snd kv) stats1 path
         else Some stats1)
      with
      | None => None
      | Some stats2 =>
          match snd kv with
          | Arr items => collect_items path (firstn 3 items) stats2
          | _ => Some stats2
          end
      end
  end.

(** One inference pass over the sampled payloads:
    [const stats = {}; for (const s of samples) collect(s.payload, stats);] *)
Definition collect_all (payloads : list value) : option Stats :=
  for_each (fun st p => collect p st "") payloads [].

(** ** SchemaBuilder: [buildSchema] *)

Record field : Type := mkField { present : nat; optional : bool; ftypes : list string }.

Definition Fields : Type := obj field.

(** [{ present: s.count, optional: s.count < total, types: Array.from(s.types) }];
    [Array.from] of the type set is its insertion-ordered list. *)
Definition field_of (total : nat) (s : stat) : field :=
  mkField (count s) (count s <? total) (types s).

(** [buildSchema(stats, total)] *)
Definition buildSchema (stats : Stats) (total : nat) : Fields :=
  fold_left
    (fun output ks => own_set (fst ks) (field_of total (snd ks)) output)
    stats [].

(** ** [JSON.stringify] on field maps

    The serialization of the values that reach [JSON.stringify] here: objects
    print their own properties in order, separated by commas and without
    white space; strings are quoted, with a quote, a backslash and the control
    characters escaped. *)

Definition dquote : ascii := "034"%char.
Definition backslash : ascii := "092"%char.

Definition hex_digit (n : nat) : ascii :=
  nth n (list_ascii_of_string "0123456789abcdef") "0"%char.

(** The escape of one character inside a JSON string literal. *)
Definition escape_char (c : ascii) : string :=
  if Ascii.eqb c dquote then String backslash (String dquote "")
  else if Ascii.eqb c backslash then String backslash (String backslash "")
  else if Ascii.eqb c "008"%char then String backslash "b"
  else if Ascii.eqb c "012"%char then String backslash "f"
  else if Ascii.eqb c "010"%char then String backslash "n"
  else if Ascii.eqb c "013"%char then String backslash "r"
  else if Ascii.eqb c "009"%char then String backslash "t"
  else if nat_of_ascii c <? 32
  then String backslash
         ("u00" ++ String (hex_digit (nat_of_ascii c / 16))
                     (String (hex_digit (nat_of_ascii c mod 16)) ""))
  else String c "".

Fixpoint escape (s : string) : string :=
  match s with
  | EmptyString => ""
  | String c s' => escape_char c ++ escape s'
  end.

Definition JSON_string (s : string) : string :=
  String dquote (escape s ++ String dquote "").

(** A count is printed in decimal. *)
Definition JSON_number (n : nat) : string :=
  NilEmpty.string_of_uint (Nat.to_uint n).

Definition JSON_bool (b : bool) : string :=
  if b then "true" else "false".

Definition JSON_array (l : list string) : string :=
  "[" ++ String.concat "," (map JSON_string l) ++ "]".

(** [JSON.stringify] of one entry [{ present, optional, types }]. *)
Definition JSON_stringify_field (f : field) : string :=
  "{" ++ JSON_string "present" ++ ":" ++ JSON_number (present f)
      ++ "," ++ JSON_string "optional" ++ ":" ++ JSON_bool (optional f)
      ++ "," ++ JSON_string "types" ++ ":" ++ JSON_array (ftypes f) ++ "}".

Definition JSON_property (kf : string * field) : string :=
  JSON_string (fst kf) ++ ":" ++ JSON_stringify_field (snd kf).

(** [JSON.stringify] of a field map. *)
Definition JSON_stringify (fs : Fields) : string :=
  "{" ++ String.concat "," (map JSON_property fs) ++ "}".

(** [deepDifferent(a, b)] of infer.js. *)
Definition deepDifferent (a b : Fields) : bool :=
  negb (String.eqb (JSON_stringify a) (JSON_stringify b)).

(** Reading one escaped character back; used to show that the escapes can be
    told apart. *)
Definition unhex (c : ascii) : nat :=
  let n := nat_of_ascii c in
  if (48 <=? n) && (n <=? 57) then n - 48 else n - 87.

Definition unescape_char (s : string) : option (ascii * string) :=
  match s with
  | EmptyString => None
  | String c r =>
      if Ascii.eqb c backslash then
        match r with
        | EmptyString => None
        | String e r' =>
            if Ascii.eqb e dquote then Some (dquote, r')
            else if Ascii.eqb e backslash then Some (backslash, r')
            else if Ascii.eqb e "b"%char then Some ("008"%char, r')
            else if Ascii.eqb e "f"%char then Some ("012"%char, r')
            else if Ascii.eqb e "n"%char then Some ("010"%char, r')
            else if Ascii.eqb e "r"%char then Some ("013"%char, r')
            else if Ascii.eqb e "t"%char then Some ("009"%char, r')
            else if Ascii.eqb e "u"%char then
              match r' with
              | String _ (String _ (String h (String l r''))) =>
                  Some (ascii_of_nat (16 * unhex h + unhex l), r'')
              | _ => None
              end
            else None
        end
      else if Ascii.eqb c dquote then None
      else Some (c, r)
  end.

(** Two field maps that differ at most in the order of their paths and of
    the type tags of a path: the same paths, and for each path the same
    [present], the same [optional] and the same set of type tags. *)
Definition agree_up_to_order (a b : Fields) : Prop :=
  ((forall k, In k (Object_keys a) <-> In k (Object_keys b)) /\
   forall k fa fb,
     own_get k a = Some fa -> own_get k b = Some fb ->
     present fa = present fb /\ optional fa = optional fb /\
     forall t, In t (ftypes fa) <-> In t (ftypes fb))%type.

(** ** SchemaDiffEngine: [diffSchemas] of routes.js *)

Record Diff : Type :=
  mkDiff { added : list string; removed : list string; changed : list string }.

(** [JSON.stringify(fields[k] || {})] *)
Definition JSON_stringify_entry (e : option field) : string :=
  match e with
  | Some f => JSON_stringify_field f
  | None => "{}"
  end.

Definition diffSchemas (fieldsA fieldsB : Fields) : Diff :=
  let keysA := Object_keys fieldsA in
  let keysB := Object_keys fieldsB in
  let added := filter (fun k => negb (includes keysA k)) keysB in
  let removed := filter (fun k => negb (includes keysB k)) keysA in
  let possibleChanged := filter (fun k => includes keysB k) keysA in
  let changed :=
    filter
      (fun k =>
         let a := own_get k fieldsA in
         let b := own_get k fieldsB in
         negb (String.eqb (JSON_stringify_entry a) (JSON_stringify_entry b)))
      possibleChanged in
  mkDiff added removed changed.

(** ** The collections of db.js *)

Record RawRecord : Type := mkRaw { payload : value; ingestedAt : nat }.

Record SchemaVersion : Type :=
  mkVersion { version : nat; fields : Fields; totalSamples : nat; notes : string }.

Record DB : Type :=
  mkDB { rawRecords : list RawRecord; schemaVersions : list SchemaVersion }.

Fixpoint insert_recent (r : RawRecord) (l : list RawRecord) : list RawRecord :=
  match l with
  | [] => [r]
  | x :: l' =>
      if ingestedAt x <? ingestedAt r then r :: l else x :: insert_recent r l'
  end.

(** Modelled from the spec: db.js (the [RawRecord] model) is not among the
    sources.  [RawRecord.find().sort({ ingestedAt:-1 }).limit(sampleSize)]
    draws up to [sampleSize] most-recently-ingested raw records, most recent
    first; records ingested at the same instant keep their insertion order. *)
Definition RawRecord_recent (sampleSize : nat) (l : list RawRecord) : list RawRecord :=
  firstn sampleSize (fold_left (fun sorted r => insert_recent r sorted) l []).

(** Modelled from the spec: db.js (the [SchemaVersion] model) is not among
    the sources.  [SchemaVersion.findOne().sort({ version:-1 })] fetches the
    single latest snapshot by version, [None] for [null]; of two snapshots
    with the same version the earlier stored one is returned. *)
Definition SchemaVersion_latest (l : list SchemaVersion) : option SchemaVersion :=
  fold_left
    (fun best x =>
       match best with
       | None => Some x
       | Some y => if version y <? version x then Some x else Some y
       end)
    l None.

(** Modelled from the spec: db.js (the [SchemaVersion] model) is not among
    the sources.  [SchemaVersion.create(doc)] appends a new snapshot in one
    atomic operation; with [unique_version] the store enforces the uniqueness
    constraint on [version] of section 5 of the specification and the append
    of a version that is already stored fails ([None]). *)
Definition SchemaVersion_create (unique_version : bool) (doc : SchemaVersion)
    (l : list SchemaVersion) : option (list SchemaVersion) :=
  if unique_version && existsb (fun x => version x =? version doc) l
  then None
  else Some (l ++ [doc]).

(** ** VersionManager: [inferAndMaybeCreateVersion] *)

(** How the promise of an [async] call settles; it is rejected when the call
    throws. *)
Inductive settled : Type :=
| Resolved (r : option SchemaVersion)
| Rejected.

(** [latest ? latest.version + 1 : 1] *)
Definition next_version (latest : option SchemaVersion) : nat :=
  match latest with
  | Some l => version l + 1
  | None => 1
  end.

(** [!latest || deepDifferent(latest.fields, newSchema)] *)
Definition needs_version (latest : option SchemaVersion) (newSchema : Fields) : bool :=
  match latest with
  | None => true
  | Some l => deepDifferent (fields l) newSchema
  end.

(** The default of the parameter: [sampleSize=30]. *)
Definition sampleSize_default : nat := 30.

(** [inferAndMaybeCreateVersion(sampleSize)] run without interruption on the
    database [db]: how it settles, and the database it leaves. *)
Definition inferAndMaybeCreateVersion (unique_version : bool) (sampleSize : nat)
    (db : DB) : settled * DB :=
  let samples := RawRecord_recent sampleSize (rawRecords db) in
  if List.length samples =? 0 then (Resolved None, db)
  else
    match collect_all (map payload samples) with
    | None => (Rejected, db)
    | Some stats =>
        let newSchema := buildSchema stats (List.length samples) in
        let latest := SchemaVersion_latest (schemaVersions db) in
        if needs_version latest newSchema then
          let newVer := next_version latest in
          let doc := mkVersion newVer newSchema (List.length samples) "auto" in
          match SchemaVersion_create unique_version doc (schemaVersions db) with
          | Some vs => (Resolved (Some doc), mkDB (rawRecords db) vs)
          | None => (Rejected, db)
          end
        else (Resolved None, db)
    end.

(** ** Concurrent invocations

    An invocation is suspended at each of its three [await]s; the database
    operation it waits for is one atomic step, and the synchronous code up to
    the next [await] runs with it. *)

Inductive task : Type :=
| AwaitSamples (sampleSize : nat)
| AwaitLatest (total : nat) (newSchema : Fields)
| AwaitCreate (doc : SchemaVersion)
| Settled (s : settled).

Definition task_step (unique_version : bool) (db : DB) (t : task) : DB * task :=
  match t with
  | AwaitSamples sampleSize =>
      let samples := RawRecord_recent sampleSize (rawRecords db) in
      if List.length samples =? 0 then (db, Settled (Resolved None))
      else
        match collect_all (map payload samples) with
        | None => (db, Settled Rejected)
        | Some stats =>
            (db, AwaitLatest (List.length samples)
                   (buildSchema stats (List.length samples)))
        end
  | AwaitLatest total newSchema =>
      let latest := SchemaVersion_latest (schemaVersions db) in
      if needs_version latest newSchema
      then (db, AwaitCreate (mkVersion (next_version latest) newSchema total "auto"))
      else (db, Settled (Resolved None))
  | AwaitCreate doc =>
      match SchemaVersion_create unique_version doc (schemaVersions db) with
      | Some vs => (mkDB (rawRecords db) vs, Settled (Resolved (Some doc)))
      | None => (db, Settled Rejected)
      end
  | Settled s => (db, Settled s)
  end.

Definition is_settled (t : task) : bool :=
  match t with
  | Settled _ => true
  | _ => false
  end.

(** A resolved invocation that returned a snapshot. *)
Definition created (t : task) : bool :=
  match t with
  | Settled (Resolved (Some _)) => true
  | _ => false
  end.

(** One step of the system: some suspended invocation is resumed. *)
Inductive sys_step (unique_version : bool) : DB * list task -> DB * list task -> Prop :=
| resume : forall db before t after db' t',
    is_settled t = false ->
    task_step unique_version db t = (db', t') ->
    sys_step unique_version (db, before ++ t :: after) (db', before ++ t' :: after).

Inductive sys_steps (unique_version : bool) : DB * list task -> DB * list task -> Prop :=
| steps_done : forall s, sys_steps unique_version s s
| steps_more : forall s1 s2 s3,
    sys_step unique_version s1 s2 ->
    sys_steps unique_version s2 s3 ->
    sys_steps unique_version s1 s3.

(** The schedule that resumes the invocations from left to right. *)
Fixpoint run_in_order (unique_version : bool) (db : DB) (ts : list task) : DB * list task :=
  match ts with
  | [] => (db, [])
  | t :: ts' =>
      let (db1, t1) := task_step unique_version db t in
      let (db2, ts2) := run_in_order unique_version db1 ts' in
      (db2, t1 :: ts2)
  end.

(** An invocation resumed on its own until it settles. *)
Fixpoint run_alone (fuel : nat) (unique_version : bool) (db : DB) (t : task) : DB * task :=
  match fuel with
  | 0 => (db, t)
  | S fuel' =>
      if is_settled t then (db, t)
      else
        let (db', t') := task_step unique_version db t in
        run_alone fuel' unique_version db' t'
  end.

(** What holds of the system while invocations that all wait for the creation
    of the same snapshot [doc] on the database [db0] are resumed, under the
    uniqueness constraint: nothing is stored yet and all still wait, or [doc]
    is stored once and exactly one invocation has returned it. *)
Definition one_create_inv (db0 : DB) (doc : SchemaVersion) (n : nat)
    (s : DB * list task) : Prop :=
  let (db, ts) := s in
  (rawRecords db = rawRecords db0 /\ List.length ts = n /\
   ((schemaVersions db = schemaVersions db0 /\
     Forall (fun t => t = AwaitCreate doc) ts) \/
    (schemaVersions db = schemaVersions db0 ++ [doc] /\
     Forall (fun t => t = AwaitCreate doc \/
                      t = Settled (Resolved (Some doc)) \/
                      t = Settled Rejected) ts /\
     List.length (filter created ts) = 1)))%type.

(** The same without the constraint: every invocation that has been resumed
    has stored its own copy of [doc]. *)
Definition every_create_inv (db0 : DB) (doc : SchemaVersion) (n : nat)
    (s : DB * list task) : Prop :=
  let (db, ts) := s in
  (rawRecords db = rawRecords db0 /\ List.length ts = n /\
   schemaVersions db =
     schemaVersions db0 ++ repeat doc (List.length (filter created ts)) /\
   Forall (fun t => t = AwaitCreate doc \/
                    t = Settled (Resolved (Some doc))) ts)%type.

(** ** Field paths of a document *)

(** [f] over the first [n] elements of [l], the results in one list. *)
Fixpoint first_items {A B : Type} (n : nat) (f : A -> list B) (l : list A) : list B :=
  match n, l with
  | S n', x :: l' => f x ++ first_items n' f l'
  | _, _ => []
  end.

(** The field paths reachable from a document within the array sampling cap,
    in the words of section 4.1 of the specification: a scalar or an array
    that is not the value of a field has the path [value], or its prefix when
    it is an element of an array; every key of an object is a path, [parent.k]
    or bare [k] at the root; under an object-valued field the paths continue
    with the extended path, under an array-valued field with the path
    suffixed by [[]] for the first 3 elements; an absent value has no path.
    A path is listed once for every field and element found there. *)
Fixpoint reachable_paths (o : value) (prefix : string) {struct o} : list string :=
  match o with
  | Null | Undefined => []
  | Obj props =>
      flat_map
        (fun kv =>
           let path := child_path prefix (fst kv) in
           path ::
           match snd kv with
           | Obj _ => reachable_paths (snd kv) path
           | Arr items =>
               first_items 3 (fun item => reachable_paths item (element_path path)) items
           | _ => []
           end)
        props
  | _ => [leaf_key prefix]
  end.

(** The keys under which the nested call [collect(v, stats, path)] records the
    array [v] of a field a second time. *)
Fixpoint array_field_keys (o : value) (prefix : string) {struct o} : list string :=
  match o with
  | Obj props =>
      flat_map
        (fun kv =>
           let path := child_path prefix (fst kv) in
           match snd kv with
           | Obj _ => array_field_keys (snd kv) path
           | Arr items =>
               leaf_key path ::
               first_items 3 (fun item => array_field_keys item (element_path path)) items
           | _ => []
           end)
        props
  | _ => []
  end.

(** The entries [collect] touches when nothing throws, in order, each with
    the tag it adds. *)
Fixpoint visits (o : value) (prefix : string) {struct o} : list (string * string) :=
  match o with
  | Null | Undefined => []
  | Obj props =>
      flat_map
        (fun kv =>
           let path := child_path prefix (fst kv) in
           (path, typeName (snd kv)) ::
           (if String.eqb (typeof (snd kv)) "object" then visits (snd kv) path else [])
           ++ match snd kv with
              | Arr items =>
                  first_items 3 (fun item => visits item (element_path path)) items
              | _ => []
              end)
        props
  | _ => [(leaf_key prefix, typeName o)]
  end.

(** What one property of an object contributes to each of the three lists. *)
Definition reachable_field (prefix : string) (kv : string * value) : list string :=
  let path := child_path prefix (fst kv) in
  path ::
  match snd kv with
  | Obj _ => reachable_paths (snd kv) path
  | Arr items => first_items 3 (fun item => reachable_paths item (element_path path)) items
  | _ => []
  end.

Definition array_keys_field (prefix : string) (kv : string * value) : list string :=
  let path := child_path prefix (fst kv) in
  match snd kv with
  | Obj _ => array_field_keys (snd kv) path
  | Arr items =>
      leaf_key path ::
      first_items 3 (fun item => array_field_keys item (element_path path)) items
  | _ => []
  end.

Definition visits_field (prefix : string) (kv : string * value) : list (string * string) :=
  let path := child_path prefix (fst kv) in
  (path, typeName (snd kv)) ::
  (if String.eqb (typeof (snd kv)) "object" then visits (snd kv) path else [])
  ++ match snd kv with
     | Arr items => first_items 3 (fun item => visits item (element_path path)) items
     | _ => []
     end.

(** The visits made one after another, as long as none throws. *)
Definition observe_all (vs : list (string * string)) (stats : Stats) : option Stats :=
  for_each (fun st v => observe (fst v) (snd v) st) vs stats.

(** The entries after the visits, when none throws. *)
Definition replay (vs : list (string * string)) (stats : Stats) : Stats :=
  fold_left (fun st v => record (fst v) (snd v) st) vs stats.

(** No visit throws: every key visited is an own property of the map or is
    not the name of a member of [Object.prototype]. *)
Definition safe (keys : list string) (stats : Stats) : bool :=
  forallb
    (fun k => negb (inherited k) ||
              match own_get k stats with Some _ => true | None => false end)
    keys.

Definition count_at (p : string) (stats : Stats) : nat :=
  match own_get p stats with
  | Some s => count s
  | None => 0
  end.

Definition types_at (p : string) (stats : Stats) : list string :=
  match own_get p stats with
  | Some s => types s
  | None => []
  end.

(** Number literals of the examples. *)
Definition int (z : Z) : value := Num (Finite (inject_Z z)).

(** ** Documents of the examples *)

Definition order_doc : value :=
  Obj [("id", int 7); ("customer", Obj [("name", Str "Ada"); ("vip", Bool false)])].

Definition items_doc : value :=
  Obj [("items", Arr [Obj [("x", int 1)]; Obj [("x", int 2)];
                      Obj [("x", int 3)]; Obj [("x", int 4)]])].

Definition three_docs : list value :=
  [Obj [("a", int 1)]; Obj [("a", Str "x")]; Obj [("a", int 1); ("b", Bool true)]].

(** ** The vocabulary of type tags *)

Definition type_tags : list string :=
  ["null"; "array"; "object"; "integer"; "number"; "string"; "boolean"].

(** ** [escapeHtml] of routes.js *)

(** The object literal of [escapeHtml], read as [table[m]]. *)
Definition html_entity (m : ascii) : option string :=
  if Ascii.eqb m "&"%char then Some "&amp;"
  else if Ascii.eqb m "<"%char then Some "&lt;"
  else if Ascii.eqb m ">"%char then Some "&gt;"
  else if Ascii.eqb m dquote then Some "&quot;"
  else if Ascii.eqb m "'"%char then Some "&#39;"
  else if Ascii.eqb m "`"%char then Some "&#96;"
  else None.

(** The character class of the regular expression of [escapeHtml]. *)
Definition is_html_special (c : ascii) : bool :=
  existsb (Ascii.eqb c) ["&"; "<"; ">"; dquote; "'"; "`"]%char.

(** What the callback of [replace] puts for a match; a callback that
    returns [undefined] makes [replace] insert the text [undefined]. *)
Definition html_replacement (m : ascii) : string :=
  match html_entity m with
  | Some e => e
  | None => "undefined"
  end.

(** [s.replace(re, callback)] with the global flag, [re] being the class. *)
Fixpoint replace_html_special (s : string) : string :=
  match s with
  | EmptyString => ""
  | String c r =>
      (if is_html_special c then html_replacement c else String c "")
      ++ replace_html_special r
  end.

Definition escapeHtml (s : value) : value :=
  if String.eqb (typeof s) "string"
  then match s with
       | Str text => Str (replace_html_special text)
       | _ => s
       end
  else s.

(** Reading one character of escaped text back; used to tell escaped texts
    apart. *)
Fixpoint strip_prefix (p s : string) : option string :=
  match p with
  | EmptyString => Some s
  | String a p' =>
      match s with
      | EmptyString => None
      | String b s' => if Ascii.eqb a b then strip_prefix p' s' else None
      end
  end.

Definition unescape_html_char (s : string) : option (ascii * string) :=
  match s with
  | EmptyString => None
  | String c r =>
      if Ascii.eqb c "&"%char then
        match strip_prefix "amp;" r with
        | Some r' => Some ("&"%char, r')
        | None =>
        match strip_prefix "lt;" r with
        | Some r' => Some ("<"%char, r')
        | None =>
        match strip_prefix "gt;" r with
        | Some r' => Some (">"%char, r')
        | None =>
        match strip_prefix "quot;" r with
        | Some r' => Some (dquote, r')
        | None =>
        match strip_prefix "#39;" r with
        | Some r' => Some ("'"%char, r')
        | None =>
        match strip_prefix "#96;" r with
        | Some r' => Some ("`"%char, r')
        | None => None
        end end end end end end
      else Some (c, r)
  end.

(** A text with none of the six characters [escapeHtml] replaces. *)
Definition html_plain (s : string) : bool :=
  forallb (fun c => negb (is_html_special c)) (list_ascii_of_string s).

(** ** Text extraction: [clean] and the plain-text payload of [extractFile]

    A character is a UTF-16 code unit below 256. *)

(** The class [\s] of a regular expression, which is also what [trim]
    removes: tab, line feed, vertical tab, form feed, carriage return, space
    and no-break space. *)
Definition is_space (c : ascii) : bool :=
  let n := nat_of_ascii c in
  ((9 <=? n) && (n <=? 13)) || (n =? 32) || (n =? 160).

(** [text.replace(/\s+/g, ' ')]: every maximal run of white space becomes
    one space; [in_run] tells that the run has begun. *)
Fixpoint replace_spaces (in_run : bool) (text : string) : string :=
  match text with
  | EmptyString => ""
  | String c r =>
      if is_space c
      then if in_run then replace_spaces true r
           else String " " (replace_spaces true r)
      else String c (replace_spaces false r)
  end.

Fixpoint trimStart (s : string) : string :=
  match s with
  | EmptyString => ""
  | String c r => if is_space c then trimStart r else s
  end.

Fixpoint trimEnd (s : string) : string :=
  match s with
  | EmptyString => ""
  | String c r =>
      match trimEnd r with
      | EmptyString => if is_space c then "" else String c ""
      | String c' r' => String c (String c' r')
      end
  end.

Definition trim (s : string) : string := trimEnd (trimStart s).

(** [clean(text)] of the extractor. *)
Definition clean (text : string) : string := trim (replace_spaces false text).

(** [text.split(/\s+/)]: the pieces between the maximal runs of white space,
    the empty ones at the ends included; [piece] is the piece being read. *)
Fixpoint split_spaces (in_run : bool) (piece : string) (text : string) : list string :=
  match text with
  | EmptyString => [piece]
  | String c r =>
      if is_space c
      then if in_run then split_spaces true piece r
           else piece :: split_spaces true "" r
      else split_spaces false (piece ++ String c "") r
  end.

(** [text.split(/\s+/).length] *)
Definition wordCount (text : string) : nat :=
  List.length (split_spaces false "" text).

(** The payload [extractFile] returns for plain text in which no JSON block
    was found: [{ text: cleaned, length: cleaned.length, wordCount: ... }]. *)
Definition plain_text_payload (txt : string) : value :=
  let cleaned := clean txt in
  Obj [("text", Str cleaned);
       ("length", int (Z.of_nat (String.length cleaned)));
       ("wordCount", int (Z.of_nat (wordCount cleaned)))].

(** What [extractFile] returns: [{ type, payload }]. *)
Record extraction : Type := mkExtraction { etype : string; epayload : value }.

(** The [catch] of [extractFile]: [{ type: "error", payload: { error: err.message } }]. *)
Definition extraction_error (message : string) : extraction :=
  mkExtraction "error" (Obj [("error", Str message)]).

(** [payloadToStore] of the upload route. *)
Definition payloadToStore (extracted : extraction) : value :=
  if String.eqb (etype extracted) "json"
  then epayload extracted
  else Obj [("_extractedText", epayload extracted)].

(** Every white space of the text is a single space that is not at the start
    ([after_space] tells that a space, or nothing, comes just before). *)
Fixpoint spaced (after_space : bool) (s : string) : bool :=
  match s with
  | EmptyString => true
  | String c r =>
      if is_space c
      then Ascii.eqb c " " && negb after_space && spaced true r
      else spaced false r
  end.

Fixpoint ends_with_space (s : string) : bool :=
  match s with
  | EmptyString => false
  | String c EmptyString => is_space c
  | String _ r => ends_with_space r
  end.

(** A tidy text: words separated by single spaces, nothing else. *)
Definition tidy (s : string) : bool := spaced true s && negb (ends_with_space s).

(** The characters of a text that are not white space. *)
Definition letters (s : string) : list ascii :=
  filter (fun c => negb (is_space c)) (list_ascii_of_string s).

(** The number of words of a text: the places where white space, or the
    start, is followed by another character. *)
Fixpoint count_words (after_space : bool) (s : string) : nat :=
  match s with
  | EmptyString => 0
  | String c r =>
      if is_space c then count_words true r
      else (if after_space then 1 else 0) + count_words false r
  end.

(** * Properties *)

(** ** Objects as maps *)

Section OwnProperties.
Context {V : Type}.
Implicit Types (o : obj V) (k : string) (v : V).

Lemma own_get_set_same o k v : own_get k (own_set k v o) = Some v.
Proof.
  induction o as [|[k' v'] o IH]; simpl.
  - now rewrite String.eqb_refl.
  - destruct (String.eqb k' k) eqn:E; simpl; rewrite E; auto.
Qed.

Lemma own_get_set_other o k k' v :
  k <> k' -> own_get k' (own_set k v o) = own_get k' o.
Proof.
  intros Hne. induction o as [|[k0 v0] o IH]; simpl.
  - destruct (String.eqb k k') eqn:E; auto.
    apply String.eqb_eq in E. contradiction.
  - destruct (String.eqb k0 k) eqn:E; simpl.
    + apply String.eqb_eq in E. subst k0.
      destruct (String.eqb k k') eqn:E'; auto.
      apply String.eqb_eq in E'. contradiction.
    + now rewrite IH.
Qed.

Lemma own_get_In o k : In k (Object_keys o) <-> own_get k o <> None.
Proof.
  induction o as [|[k' v'] o IH]; simpl.
  - tauto.
  - destruct (String.eqb k' k) eqn:E.
    + apply String.eqb_eq in E. split; [discriminate | auto].
    + apply String.eqb_neq in E. rewrite <- IH. tauto.
Qed.

Lemma own_set_keys o k v :
  Object_keys (own_set k v o) =
  match own_get k o with
  | Some _ => Object_keys o
  | None => Object_keys o ++ [k]
  end.
Proof.
  induction o as [|[k' v'] o IH]; simpl; auto.
  destruct (String.eqb k' k) eqn:E; simpl; auto.
  rewrite IH. now destruct (own_get k o).
Qed.

Lemma own_set_NoDup o k v :
  NoDup (Object_keys o) -> NoDup (Object_keys (own_set k v o)).
Proof.
  intros Hnd. rewrite own_set_keys.
  destruct (own_get k o) eqn:E; auto.
  apply NoDup_app; auto.
  - constructor; [intros [] | constructor].
  - intros x Hx [<-|[]]. apply own_get_In in Hx. congruence.
Qed.

Lemma own_set_In o k v k' :
  In k' (Object_keys (own_set k v o)) <-> In k' (Object_keys o) \/ k' = k.
Proof.
  rewrite own_set_keys. destruct (own_get k o) eqn:E.
  - split; auto. intros [H| ->]; auto.
    apply own_get_In. congruence.
  - rewrite in_app_iff. simpl. intuition auto.
Qed.
End OwnProperties.

(** ** The loops of [collect] *)

Lemma each_item_eq path : forall n its st,
  (fix each_item (n : nat) (its : list value) (stats : Stats) {struct its}
       : option Stats :=
     match n, its with
     | S n', item :: its' =>
         match collect item stats (element_path path) with
         | None => None
         | Some stats' => each_item n' its' stats'
         end
     | _, _ => Some stats
     end) n its st = collect_items path (firstn n its) st.
Proof.
  induction n as [|n IH]; intros [|it its] st; try reflexivity.
  cbn [firstn]. unfold collect_items. cbn [for_each].
  destruct (collect it st (element_path path)); [apply IH | reflexivity].
Qed.

Lemma collect_Obj props : forall st prefix,
  collect (Obj props) st prefix = for_each (collect_field prefix) props st.
Proof.
  induction props as [|[k v] ps IH]; intros st prefix; [reflexivity|].
  cbn [for_each]. unfold collect_field at 1. cbn [fst snd].
  change (collect (Obj ((k, v) :: ps)) st prefix) with
    (match observe (child_path prefix k) (typeName v) st with
     | None => None
     | Some stats1 =>
         match
           (if String.eqb (typeof v) "object"
            then collect v stats1 (child_path prefix k)
            else Some stats1)
         with
         | None => None
         | Some stats2 =>
             match
               (match v with
                | Arr items =>
                    (fix each_item (n : nat) (its : list value)
                         (stats : Stats) {struct its} : option Stats :=
                       match n, its with
                       | S n', item :: its' =>
                           match collect item stats (element_path (child_path prefix k)) with
                           | None => None
                           | Some stats' => each_item n' its' stats'
                           end
                       | _, _ => Some stats
                       end) 3 items stats2
                | _ => Some stats2
                end)
             with
             | None => None
             | Some stats3 => collect (Obj ps) stats3 prefix
             end
         end
     end).
  destruct (observe _ _ st) as [st1|]; [|reflexivity].
  destruct (if String.eqb (typeof v) "object" then _ else _) as [st2|]; [|reflexivity].
  destruct v; try apply IH.
  rewrite each_item_eq.
  destruct (collect_items _ _ st2); [apply IH | reflexivity].
Qed.

Lemma first_items_firstn {A B : Type} (f : A -> list B) : forall n l,
  first_items n f l = flat_map f (firstn n l).
Proof.
  induction n as [|n IH]; intros [|x l]; simpl; auto. now rewrite IH.
Qed.

(** Induction that also hands out the elements of an array-valued field. *)
Lemma value_field_ind (P : value -> Prop) :
  P Undefined -> P Null -> (forall b, P (Bool b)) -> (forall n, P (Num n)) ->
  (forall s, P (Str s)) ->
  (forall items, Forall P items -> P (Arr items)) ->
  (forall props,
     Forall (fun kv => P (snd kv) /\
                       forall items, snd kv = Arr items -> Forall P items) props ->
     P (Obj props)) ->
  forall v, P v.
Proof.
  intros HU HN HB HNum HS HA HO v.
  enough (H : P v /\ forall items, v = Arr items -> Forall P items) by apply H.
  induction v using value_ind; try (split; [auto | discriminate]).
  assert (Hall : Forall P items).
  { eapply Forall_impl; [|exact H]. simpl. tauto. }
  split; [auto|]. intros ? [= <-]. exact Hall.
Qed.

(** ** [record], [observe] and [replay] *)

Lemma own_get_record_same k t st :
  own_get k (record k t st) =
  Some (mkStat (S (count_at k st)) (Set_add t (types_at k st))).
Proof.
  unfold record, count_at, types_at. rewrite own_get_set_same.
  now destruct (own_get k st).
Qed.

Lemma own_get_record_other k t st p :
  k <> p -> own_get p (record k t st) = own_get p st.
Proof. intros H. unfold record. now apply own_get_set_other. Qed.

Lemma count_at_record k t st p :
  count_at p (record k t st) =
  count_at p st + (if string_dec k p then 1 else 0).
Proof.
  destruct (string_dec k p) as [->|Hne].
  - unfold count_at at 1. rewrite own_get_record_same. simpl. lia.
  - unfold count_at. rewrite own_get_record_other by assumption. lia.
Qed.

Lemma record_NoDup k t st :
  NoDup (Object_keys st) -> NoDup (Object_keys (record k t st)).
Proof. apply own_set_NoDup. Qed.

Lemma record_In k t st p :
  In p (Object_keys (record k t st)) <-> In p (Object_keys st) \/ p = k.
Proof. apply own_set_In. Qed.

Lemma observe_Some k t st st' : observe k t st = Some st' -> st' = record k t st.
Proof.
  unfold observe. destruct (own_get k st); [|destruct (inherited k)]; congruence.
Qed.

Lemma observe_not_inherited k t st :
  inherited k = false -> observe k t st = Some (record k t st).
Proof. unfold observe. intros ->. now destruct (own_get k st). Qed.

Lemma observe_safe k t st :
  observe k t st = if safe [k] st then Some (record k t st) else None.
Proof.
  unfold observe, safe. cbn [forallb]. rewrite andb_true_r.
  destruct (own_get k st); [now rewrite orb_true_r|].
  rewrite orb_false_r. now destruct (inherited k).
Qed.

Lemma replay_app a b st : replay (a ++ b) st = replay b (replay a st).
Proof. apply fold_left_app. Qed.

Lemma for_each_app {A S : Type} (body : S -> A -> option S) : forall a b st,
  for_each body (a ++ b) st =
  match for_each body a st with
  | None => None
  | Some st' => for_each body b st'
  end.
Proof.
  induction a as [|x a IH]; intros b st; [reflexivity|].
  cbn [app for_each]. destruct (body st x); [apply IH | reflexivity].
Qed.

Lemma observe_all_app a b st :
  observe_all (a ++ b) st =
  match observe_all a st with
  | None => None
  | Some st' => observe_all b st'
  end.
Proof. apply for_each_app. Qed.

Lemma count_at_replay p : forall vs st,
  count_at p (replay vs st) = count_at p st + count_occ string_dec (map fst vs) p.
Proof.
  induction vs as [|[k t] vs IH]; intros st; simpl.
  - lia.
  - rewrite IH, count_at_record. simpl.
    destruct (string_dec k p); lia.
Qed.

Lemma replay_NoDup : forall vs st,
  NoDup (Object_keys st) -> NoDup (Object_keys (replay vs st)).
Proof.
  induction vs as [|[k t] vs IH]; intros st H; simpl; auto.
  apply IH, record_NoDup, H.
Qed.

Lemma replay_In p : forall vs st,
  In p (Object_keys (replay vs st)) <-> In p (Object_keys st) \/ In p (map fst vs).
Proof.
  induction vs as [|[k t] vs IH]; intros st; simpl.
  - tauto.
  - rewrite IH, record_In. intuition auto.
Qed.

Lemma safe_record k t st :
  safe [k] st = true -> forall keys, safe keys (record k t st) = safe keys st.
Proof.
  unfold safe. cbn [forallb]. rewrite andb_true_r. intros Hk.
  induction keys as [|k' keys IH]; [reflexivity|].
  cbn [forallb]. rewrite IH. f_equal.
  destruct (string_dec k k') as [<-|Hne].
  - rewrite own_get_record_same, Hk. now destruct (inherited k).
  - now rewrite own_get_record_other.
Qed.

Lemma safe_cons k keys st : safe (k :: keys) st = safe [k] st && safe keys st.
Proof. unfold safe. cbn [forallb]. now rewrite andb_true_r. Qed.

Lemma safe_app a b st : safe (a ++ b) st = safe a st && safe b st.
Proof. unfold safe. apply forallb_app. Qed.

Lemma observe_all_safe : forall vs st,
  observe_all vs st = if safe (map fst vs) st then Some (replay vs st) else None.
Proof.
  induction vs as [|[k t] vs IH]; intros st; [reflexivity|].
  unfold observe_all. cbn [for_each map fst snd]. fold (observe_all vs).
  rewrite safe_cons, observe_safe.
  destruct (safe [k] st) eqn:Ek; [|reflexivity].
  rewrite IH, (safe_record k t st Ek). reflexivity.
Qed.

(** ** [collect] makes its visits *)

Lemma collect_items_visits path : forall items n st,
  Forall (fun v => forall st prefix, collect v st prefix = observe_all (visits v prefix) st)
         items ->
  collect_items path (firstn n items) st =
  observe_all (first_items n (fun item => visits item (element_path path)) items) st.
Proof.
  induction items as [|it items IH]; intros [|n] st Hall; try reflexivity.
  inversion Hall as [|? ? Hit Hrest]; subst.
  cbn [firstn first_items]. rewrite observe_all_app, <- Hit.
  unfold collect_items. cbn [for_each].
  destruct (collect it st (element_path path)); [|reflexivity].
  now apply IH.
Qed.

Lemma visits_Obj props prefix :
  visits (Obj props) prefix = flat_map (visits_field prefix) props.
Proof. reflexivity. Qed.

Lemma reachable_paths_Obj props prefix :
  reachable_paths (Obj props) prefix = flat_map (reachable_field prefix) props.
Proof. reflexivity. Qed.

Lemma array_field_keys_Obj props prefix :
  array_field_keys (Obj props) prefix = flat_map (array_keys_field prefix) props.
Proof. reflexivity. Qed.

Lemma observe_all_cons k t vs st :
  observe_all ((k, t) :: vs) st =
  match observe k t st with
  | None => None
  | Some st' => observe_all vs st'
  end.
Proof. reflexivity. Qed.

Lemma observe_all_nil st : observe_all [] st = Some st.
Proof. reflexivity. Qed.

Lemma observe_all_one k t st : observe_all [(k, t)] st = observe k t st.
Proof. rewrite observe_all_cons. now destruct (observe k t st). Qed.

Lemma collect_visits : forall v st prefix,
  collect v st prefix = observe_all (visits v prefix) st.
Proof.
  induction v using value_field_ind; intros st prefix;
    try reflexivity;
    try (simpl; now rewrite observe_all_one).
  rewrite collect_Obj, visits_Obj. revert st.
  induction H as [|[k v] props [Hv Hitems] _ IH]; intros st; [reflexivity|].
  cbn [for_each flat_map]. rewrite observe_all_app.
  enough (E : collect_field prefix st (k, v) =
              observe_all (visits_field prefix (k, v)) st).
  { rewrite E. destruct (observe_all _ st); [apply IH | reflexivity]. }
  clear IH. unfold collect_field, visits_field. cbn [fst snd] in *.
  rewrite observe_all_cons.
  destruct (observe _ _ st) as [st1|]; [|reflexivity].
  rewrite observe_all_app.
  destruct v.
  - reflexivity.
  - reflexivity.
  - reflexivity.
  - reflexivity.
  - reflexivity.
  - change (typeof (Arr items) =? "object")%string with true. cbv iota.
    rewrite Hv. destruct (observe_all _ st1) as [st2|]; [|reflexivity].
    apply collect_items_visits, Hitems. reflexivity.
  - change (typeof (Obj props0) =? "object")%string with true. cbv iota.
    rewrite Hv. now destruct (observe_all _ st1).
Qed.

(** [collect] returns normally exactly when no visit throws, and then with
    the entries the visits leave. *)
Lemma collect_replay v st prefix :
  collect v st prefix =
  if safe (map fst (visits v prefix)) st
  then Some (replay (visits v prefix) st)
  else None.
Proof. rewrite collect_visits. apply observe_all_safe. Qed.

Lemma collect_Some v st prefix st' :
  collect v st prefix = Some st' ->
  safe (map fst (visits v prefix)) st = true /\ st' = replay (visits v prefix) st.
Proof.
  rewrite collect_replay. destruct (safe _ st); [|discriminate].
  intros [= <-]. auto.
Qed.

(** ** Visits against reachable paths *)

Lemma first_items_counted p path : forall items n,
  Forall (fun v => forall prefix,
            count_occ string_dec (map fst (visits v prefix)) p =
            count_occ string_dec (reachable_paths v prefix) p +
            count_occ string_dec (array_field_keys v prefix) p) items ->
  count_occ string_dec (map fst (first_items n (fun item => visits item path) items)) p =
  count_occ string_dec (first_items n (fun item => reachable_paths item path) items) p +
  count_occ string_dec (first_items n (fun item => array_field_keys item path) items) p.
Proof.
  induction items as [|it items IH]; intros [|n] Hall; try reflexivity.
  inversion Hall as [|? ? Hit Hrest]; subst.
  cbn [first_items]. rewrite map_app, !count_occ_app, IH by assumption.
  specialize (Hit path). lia.
Qed.

Lemma visits_count p : forall v prefix,
  count_occ string_dec (map fst (visits v prefix)) p =
  count_occ string_dec (reachable_paths v prefix) p +
  count_occ string_dec (array_field_keys v prefix) p.
Proof.
  induction v using value_field_ind; intros prefix;
    try reflexivity;
    try (simpl; destruct (string_dec (leaf_key prefix) p); lia).
  rewrite visits_Obj, reachable_paths_Obj, array_field_keys_Obj.
  induction H as [|[k v] props [Hv Hitems] _ IH]; [reflexivity|].
  cbn [flat_map]. rewrite map_app, !count_occ_app, IH.
  enough (count_occ string_dec (map fst (visits_field prefix (k, v))) p =
          count_occ string_dec (reachable_field prefix (k, v)) p +
          count_occ string_dec (array_keys_field prefix (k, v)) p) by lia.
  clear IH. unfold visits_field, reachable_field, array_keys_field.
  cbn [fst snd] in *.
  set (path := child_path prefix k).
  destruct v;
    try (simpl; destruct (string_dec path p); lia).
  - (* an array-valued field *)
    specialize (Hitems items eq_refl).
    pose proof (first_items_counted p (element_path path) items 3 Hitems) as Hc.
    change (typeof (Arr items) =? "object")%string with true. cbv iota.
    cbn [visits nullish map fst app count_occ]. rewrite Hc.
    destruct (string_dec path p), (string_dec (leaf_key path) p); lia.
  - (* an object-valued field *)
    change (typeof (Obj props0) =? "object")%string with true. cbv iota.
    rewrite app_nil_r. specialize (Hv path).
    cbn [map fst count_occ]. rewrite Hv.
    destruct (string_dec path p); lia.
Qed.

Lemma count_at_fresh D p st :
  collect D [] "" = Some st ->
  count_at p st =
  count_occ string_dec (reachable_paths D "") p +
  count_occ string_dec (array_field_keys D "") p.
Proof.
  intros H. apply collect_Some in H as [_ ->]. rewrite count_at_replay.
  unfold count_at at 1. simpl. apply visits_count.
Qed.

Lemma keys_fresh D p st :
  collect D [] "" = Some st ->
  (In p (Object_keys st) <->
   In p (reachable_paths D "") \/ In p (array_field_keys D "")).
Proof.
  intros H. apply collect_Some in H as [_ ->]. rewrite replay_In. simpl.
  rewrite (count_occ_In string_dec), (count_occ_In string_dec (reachable_paths D "")),
    (count_occ_In string_dec (array_field_keys D "")).
  pose proof (visits_count p D "") as H. simpl in H. lia.
Qed.

Lemma count_at_get (st : Stats) p s : own_get p st = Some s -> count_at p st = count s.
Proof. unfold count_at. now intros ->. Qed.

Lemma safe_fresh keys :
  safe keys [] = forallb (fun k => negb (inherited k)) keys.
Proof.
  unfold safe. induction keys as [|k keys IH]; [reflexivity|].
  cbn [forallb own_get]. rewrite orb_false_r. f_equal. exact IH.
Qed.

Lemma inherited_leaf_key p : inherited p = false -> inherited (leaf_key p) = false.
Proof. unfold leaf_key. destruct (truthy p); [auto | reflexivity]. Qed.

(** A document is profiled without an exception into a fresh map as soon as
    none of its reachable paths names a member of [Object.prototype]. *)
Lemma collect_fresh_returns D :
  Forall (fun p => inherited p = false) (reachable_paths D "") ->
  exists st, collect D [] "" = Some st.
Proof.
  intros Hall. rewrite collect_replay, safe_fresh.
  replace (forallb _ _) with true; [eauto|]. symmetry.
  apply forallb_forall. intros k Hk. apply negb_true_iff.
  apply (count_occ_In string_dec) in Hk. rewrite visits_count in Hk.
  rewrite Forall_forall in Hall.
  destruct (in_dec string_dec k (reachable_paths D "")) as [Hr|Hr]; [auto|].
  rewrite (proj1 (count_occ_not_In string_dec _ _) Hr) in Hk.
  assert (Ha : In k (array_field_keys D "")) by (apply (count_occ_In string_dec); lia).
  clear Hk Hr. revert Ha.
  enough (G : forall v prefix,
             Forall (fun p => inherited p = false) (reachable_paths v prefix) ->
             Forall (fun p => inherited p = false) (array_field_keys v prefix)).
  { intros Ha. specialize (G D "" ltac:(apply Forall_forall; exact Hall)).
    rewrite Forall_forall in G. auto. }
  clear. induction v using value_field_ind; intros prefix Hall; try constructor.
  rewrite reachable_paths_Obj in Hall. rewrite array_field_keys_Obj.
  induction H as [|[k v] props [Hv Hitems] _ IH]; [constructor|].
  cbn [flat_map] in *. apply Forall_app in Hall as [Hf Hrest].
  apply Forall_app. split; [|auto]. clear IH Hrest.
  unfold reachable_field in Hf. unfold array_keys_field. cbn [fst snd] in *.
  apply Forall_cons_iff in Hf as [Hpath Hsub].
  destruct v; try constructor.
  - now apply inherited_leaf_key.
  - specialize (Hitems items eq_refl). clear Hv Hpath.
    revert Hsub. generalize 3. induction Hitems as [|x l Hx _ IHl]; intros [|n] Hsub;
      try constructor.
    cbn [first_items] in *. apply Forall_app in Hsub as [H1 H2].
    apply Forall_app. split; [apply Hx, H1 | apply IHl, H2].
  - auto.
Qed.

(** ** C1 *)

(** C1, as the code has it.  Take a document none of whose reachable paths
    names a member of [Object.prototype].  [collect] on it and a fresh
    statistics map returns normally and leaves one entry per distinct key;
    every reachable path has an entry whose count is at least the number of
    fields and sampled array elements recorded at that path; at every key
    that is not the second record of an array-valued field the entry exists
    exactly when the key is a reachable path, and its count is that number;
    so in a document without array-valued fields whose fields have pairwise
    distinct paths every count is 1.  (What is left at the key of the second
    record of an array-valued field beyond this is left open, and so are the
    documents with a path that names a member of [Object.prototype].) *)
Theorem collect_fresh_entries (D : value) :
  Forall (fun p => inherited p = false) (reachable_paths D "") ->
  exists st,
    collect D [] "" = Some st /\
    NoDup (Object_keys st) /\
    (forall p, In p (reachable_paths D "") ->
       exists s, own_get p st = Some s /\
                 1 <= count_occ string_dec (reachable_paths D "") p <= count s) /\
    (forall p, ~ In p (array_field_keys D "") ->
       (In p (Object_keys st) <-> In p (reachable_paths D "")) /\
       count_at p st = count_occ string_dec (reachable_paths D "") p) /\
    (array_field_keys D "" = [] -> NoDup (reachable_paths D "") ->
       forall p s, own_get p st = Some s -> count s = 1).
Proof.
  intros Hsafe. destruct (collect_fresh_returns D Hsafe) as [st E].
  exists st. split; [exact E|]. split; [|split; [|split]].
  - apply collect_Some in E as [_ ->]. apply replay_NoDup. constructor.
  - intros p H.
    pose proof (proj2 (keys_fresh D p st E) (or_introl H)) as Hin.
    apply own_get_In in Hin.
    destruct (own_get p st) as [s|] eqn:Es; [|congruence].
    exists s. split; [reflexivity|].
    pose proof (count_at_fresh D p st E) as Hc. rewrite (count_at_get _ _ _ Es) in Hc.
    apply (count_occ_In string_dec) in H. lia.
  - intros p H. split.
    + rewrite (keys_fresh D p st E). tauto.
    + rewrite (count_at_fresh D p st E).
      rewrite (proj1 (count_occ_not_In string_dec _ _) H). lia.
  - intros Hnone Hnd p s Es.
    pose proof (count_at_fresh D p st E) as Hc. rewrite (count_at_get _ _ _ Es) in Hc.
    rewrite Hnone in Hc. simpl in Hc.
    assert (Hin : In p (reachable_paths D "")).
    { assert (Hk : In p (Object_keys st)).
      { apply own_get_In. congruence. }
      apply (keys_fresh D p st E) in Hk. rewrite Hnone in Hk. simpl in Hk. tauto. }
    rewrite (proj1 (NoDup_count_occ' string_dec _) Hnd p Hin) in Hc. lia.
Qed.

Lemma collect_fresh_entries_witness :
  Forall (fun p => inherited p = false) (reachable_paths order_doc "") /\
  exists st, collect order_doc [] "" = Some st /\ NoDup (Object_keys st).
Proof.
  assert (Hsafe : Forall (fun p => inherited p = false) (reachable_paths order_doc ""))
    by (repeat constructor).
  split; [exact Hsafe|].
  destruct (collect_fresh_entries order_doc Hsafe) as (st & E & Hnd & _).
  exists st. split; [exact E | exact Hnd].
Defined.

(** The slip next to it: the nested call [collect(v, stats, path)] is made
    for an array [v] as well and counts the field a second time. *)
Example array_field_counted_twice :
  option_map (own_get "items") (collect items_doc [] "") =
  Some (Some (mkStat 2 ["array"])).
Proof. reflexivity. Qed.

(** A second slip: [stats] is a plain object, so [stats[path]] at a path that
    names a member of [Object.prototype] finds that member, no entry is made
    and [.types.add] throws. *)
Example prototype_key_throws :
  collect (Obj [("constructor", int 1)]) [] "" = None.
Proof. reflexivity. Qed.

(** C1 as stated fails: the three sampled elements of [items] share the path
    [items[].x], whose count is 3 after one document. *)
Lemma collect_fresh_count_not_one :
  ~ (forall D st p s,
       collect D [] "" = Some st -> own_get p st = Some s -> count s = 1).
Proof.
  intros H.
  specialize (H items_doc
                [("items", mkStat 2 ["array"]); ("items[].x", mkStat 3 ["integer"])]
                "items[].x" (mkStat 3 ["integer"]) eq_refl eq_refl).
  discriminate H.
Qed.

(** ** C5, C10: top-level values *)

Lemma observe_value t st : observe "value" t st = Some (record "value" t st).
Proof. unfold observe. now destruct (own_get "value" st). Qed.

(** C5, as the code has it.  A top-level boolean, number or string is recorded
    under the synthetic path [value]: [collect] returns normally, the count of
    that entry goes up by one, the tag of the value joins its type set, no
    other entry changes.  A top-level [null] or [undefined] is not recorded:
    [collect] returns at its first line and the statistics map is left as it
    was. *)
Theorem collect_top_level_scalar (v : value) (st : Stats) :
  (scalar v = true ->
     exists st',
       collect v st "" = Some st' /\
       own_get "value" st' =
         Some (mkStat (S (count_at "value" st))
                      (Set_add (typeName v) (types_at "value" st))) /\
       In (typeName v) ["boolean"; "integer"; "number"; "string"] /\
       forall p, p <> "value" -> own_get p st' = own_get p st) /\
  (nullish v = true -> collect v st "" = Some st).
Proof.
  split.
  - intros Hs. exists (record "value" (typeName v) st).
    assert (E : collect v st "" = observe "value" (typeName v) st)
      by (destruct v; try discriminate Hs; reflexivity).
    rewrite E, observe_value. split; [reflexivity|].
    split; [apply own_get_record_same|split].
    + destruct v as [| | b | n | s | items | props]; try discriminate Hs;
        [| unfold typeName; cbn [nullish Array_isArray typeof String.eqb Ascii.eqb Bool.eqb];
           destruct (Number_isInteger (Num n)) |]; simpl; tauto.
    + intros p Hp. apply own_get_record_other. congruence.
  - destruct v; try discriminate; reflexivity.
Qed.

Lemma collect_top_level_scalar_witness :
  (exists st',
     collect (Str "hello") [("value", mkStat 2 ["integer"])] "" = Some st' /\
     own_get "value" st' = Some (mkStat 3 ["integer"; "string"])) /\
  collect Undefined [("value", mkStat 2 ["integer"])] "" =
  Some [("value", mkStat 2 ["integer"])].
Proof.
  split.
  - destruct (proj1 (collect_top_level_scalar (Str "hello")
                       [("value", mkStat 2 ["integer"])]) eq_refl)
      as (st' & E & Hv & _).
    exists st'. split; [exact E | exact Hv].
  - apply (collect_top_level_scalar Undefined [("value", mkStat 2 ["integer"])]).
    reflexivity.
Defined.

(** C5 as stated fails: a top-level [null] leaves no entry under [value]. *)
Lemma collect_top_level_null_unrecorded :
  ~ (forall v st st',
       scalar v || nullish v = true ->
       collect v st "" = Some st' ->
       own_get "value" st' =
       Some (mkStat (S (count_at "value" st))
                    (Set_add (typeName v) (types_at "value" st)))).
Proof.
  intros H. specialize (H Null [] [] eq_refl eq_refl). discriminate H.
Qed.

(** C10.  A top-level array is recorded once, under [value], with the single
    tag [array]; [collect] returns normally and its elements are not visited:
    whatever they are, the map that results is the same, and from a fresh map
    it holds that one entry only. *)
Theorem collect_top_level_array (items : list value) :
  collect (Arr items) [] "" = Some [("value", mkStat 1 ["array"])] /\
  (forall st, collect (Arr items) st "" = Some (record "value" "array" st)) /\
  (forall st items', collect (Arr items') st "" = collect (Arr items) st "").
Proof.
  repeat split. intros st.
  change (collect (Arr items) st "") with (observe "value" "array" st).
  apply observe_value.
Qed.

(** ** C8: the array sampling cap *)

Lemma collect_Obj_app before rest st prefix :
  collect (Obj (before ++ rest)) st prefix =
  match collect (Obj before) st prefix with
  | None => None
  | Some st1 => collect (Obj rest) st1 prefix
  end.
Proof.
  rewrite !collect_Obj, for_each_app.
  destruct (for_each _ before st); [now rewrite collect_Obj | reflexivity].
Qed.

Lemma collect_field_Arr prefix st k items :
  collect_field prefix st (k, Arr items) =
  match observe (child_path prefix k) "array" st with
  | None => None
  | Some st1 =>
      match collect (Arr items) st1 (child_path prefix k) with
      | None => None
      | Some st2 => collect_items (child_path prefix k) (firstn 3 items) st2
      end
  end.
Proof. reflexivity. Qed.

Lemma collect_array_field k items rest st prefix :
  collect (Obj ((k, Arr items) :: rest)) st prefix =
  match observe (child_path prefix k) "array" st with
  | None => None
  | Some st1 =>
      match collect (Arr items) st1 (child_path prefix k) with
      | None => None
      | Some st2 =>
          match collect_items (child_path prefix k) (firstn 3 items) st2 with
          | None => None
          | Some st3 => collect (Obj rest) st3 prefix
          end
      end
  end.
Proof.
  rewrite (collect_Obj ((k, Arr items) :: rest)). cbn [for_each].
  rewrite collect_field_Arr.
  destruct (observe _ _ st) as [st1|]; [|reflexivity].
  destruct (collect (Arr items) st1 _) as [st2|]; [|reflexivity].
  destruct (collect_items _ _ st2) as [st3|]; [|reflexivity].
  symmetry. apply collect_Obj.
Qed.

(** C8.  When the loop of [collect] reaches a field [k] whose value is an
    array, it records the field and then visits the first three elements of
    the array, and no others, each with the prefix [path[]]; an array that
    agrees on its first three elements gives the same outcome, statistics or
    exception.  The four elements of the example leave the count 3 at
    [items[].x]. *)
Theorem collect_array_cap (before rest : list (string * value)) (k : string)
    (items : list value) (st : Stats) (prefix : string) :
  let path := child_path prefix k in
  collect (Obj (before ++ (k, Arr items) :: rest)) st prefix =
    match collect (Obj before) st prefix with
    | None => None
    | Some st0 =>
        match observe path "array" st0 with
        | None => None
        | Some st1 =>
            match collect (Arr items) st1 path with
            | None => None
            | Some st2 =>
                match
                  for_each (fun s item => collect item s (element_path path))
                    (firstn 3 items) st2
                with
                | None => None
                | Some st3 => collect (Obj rest) st3 prefix
                end
            end
        end
    end /\
  (forall items',
     firstn 3 items' = firstn 3 items ->
     collect (Obj (before ++ (k, Arr items') :: rest)) st prefix =
     collect (Obj (before ++ (k, Arr items) :: rest)) st prefix) /\
  element_path "items" = "items[]" /\
  option_map (own_get "items[].x") (collect items_doc [] "") =
  Some (Some (mkStat 3 ["integer"])).
Proof.
  intros path. subst path. repeat split.
  - rewrite collect_Obj_app.
    destruct (collect (Obj before) st prefix) as [st0|]; [|reflexivity].
    apply collect_array_field.
  - intros items' Heq. rewrite !collect_Obj_app.
    destruct (collect (Obj before) st prefix) as [st0|]; [|reflexivity].
    rewrite !collect_array_field, Heq. reflexivity.
Qed.

Lemma collect_array_cap_witness :
  collect (Obj [("id", int 1); ("tags", Arr [Str "a"; Str "b"; Str "c"; Bool true; Null])]) [] "" =
  collect (Obj [("id", int 1); ("tags", Arr [Str "a"; Str "b"; Str "c"])]) [] "".
Proof.
  apply (collect_array_cap [("id", int 1)] [] "tags" [Str "a"; Str "b"; Str "c"] [] "").
  reflexivity.
Defined.

(** ** C7: [buildSchema] *)

Lemma own_set_fresh {V : Type} (o : obj V) k v :
  ~ In k (Object_keys o) -> own_set k v o = o ++ [(k, v)].
Proof.
  induction o as [|[k' v'] o IH]; simpl; intros Hn; auto.
  destruct (String.eqb k' k) eqn:E.
  - apply String.eqb_eq in E. tauto.
  - rewrite IH; tauto.
Qed.

Lemma own_get_map {V W : Type} (g : V -> W) (o : obj V) k :
  own_get k (map (fun kv => (fst kv, g (snd kv))) o) = option_map g (own_get k o).
Proof.
  induction o as [|[k' v'] o IH]; simpl; auto.
  now destruct (String.eqb k' k).
Qed.

Lemma buildSchema_loop total : forall (stats : Stats) (output : Fields),
  NoDup (Object_keys output ++ Object_keys stats) ->
  fold_left
    (fun output ks => own_set (fst ks) (field_of total (snd ks)) output)
    stats output =
  output ++ map (fun ks => (fst ks, field_of total (snd ks))) stats.
Proof.
  induction stats as [|[k s] stats IH]; intros output Hnd; simpl.
  - now rewrite app_nil_r.
  - simpl in Hnd. rewrite own_set_fresh.
    + rewrite IH.
      * now rewrite <- app_assoc.
      * unfold Object_keys. rewrite map_app. simpl.
        rewrite <- app_assoc. exact Hnd.
    + apply NoDup_remove_2 in Hnd. rewrite in_app_iff in Hnd. tauto.
Qed.

Lemma buildSchema_map stats total :
  NoDup (Object_keys stats) ->
  buildSchema stats total = map (fun ks => (fst ks, field_of total (snd ks))) stats.
Proof. intros Hnd. apply (buildSchema_loop total stats []). exact Hnd. Qed.

Lemma Set_add_NoDup x s : NoDup s -> NoDup (Set_add x s).
Proof.
  intros Hnd. unfold Set_add, includes.
  destruct (existsb (String.eqb x) s) eqn:E; auto.
  apply NoDup_app; auto.
  - constructor; [intros [] | constructor].
  - intros y Hy [<-|[]].
    assert (existsb (String.eqb x) s = true); [|congruence].
    apply existsb_exists. exists x. split; auto. apply String.eqb_refl.
Qed.

Lemma replay_types_NoDup : forall vs (st : Stats),
  (forall k s, own_get k st = Some s -> NoDup (types s)) ->
  forall k s, own_get k (replay vs st) = Some s -> NoDup (types s).
Proof.
  induction vs as [|[p t] vs IH]; intros st Hst; simpl; auto.
  apply IH. intros k s.
  destruct (string_dec p k) as [<-|Hne].
  - rewrite own_get_record_same. intros [= <-]. simpl.
    apply Set_add_NoDup. unfold types_at.
    destruct (own_get p st) eqn:E; [eauto | constructor].
  - rewrite own_get_record_other by assumption. apply Hst.
Qed.

Lemma collect_all_visits docs :
  collect_all docs = observe_all (flat_map (fun d => visits d "") docs) [].
Proof.
  unfold collect_all. generalize (@nil (string * stat)).
  induction docs as [|d docs IH]; intros st; [reflexivity|].
  cbn [for_each flat_map]. rewrite observe_all_app, collect_visits.
  destruct (observe_all (visits d "") st); [apply IH | reflexivity].
Qed.

(** A sample is profiled without an exception exactly when no visit
    throws, and then the statistics are those the visits leave. *)
Lemma collect_all_replay docs :
  collect_all docs =
  if safe (map fst (flat_map (fun d => visits d "") docs)) []
  then Some (replay (flat_map (fun d => visits d "") docs) [])
  else None.
Proof. rewrite collect_all_visits. apply observe_all_safe. Qed.

Lemma collect_all_Some docs stats :
  collect_all docs = Some stats ->
  stats = replay (flat_map (fun d => visits d "") docs) [].
Proof.
  rewrite collect_all_replay. destruct (safe _ _); [|discriminate].
  now intros [= <-].
Qed.

(** C7.  For a statistics map (an object: its keys are distinct) and a total,
    [buildSchema] lists the paths of the map in the same order and gives each
    the count as [present], [count < total] as [optional] and the type set as
    [types]; the type sets [collect] builds hold no tag twice.  The three
    documents of the example give [a] and [b] as the specification says. *)
Theorem buildSchema_entries :
  (forall stats total,
     NoDup (Object_keys stats) ->
     Object_keys (buildSchema stats total) = Object_keys stats /\
     forall k s,
       own_get k stats = Some s ->
       own_get k (buildSchema stats total) =
       Some (mkField (count s) (count s <? total) (types s))) /\
  (forall docs stats k s,
     collect_all docs = Some stats -> own_get k stats = Some s -> NoDup (types s)) /\
  option_map (fun stats => buildSchema stats 3) (collect_all three_docs) =
    Some [("a", mkField 3 false ["integer"; "string"]);
          ("b", mkField 1 true ["boolean"])].
Proof.
  split; [|split].
  - intros stats total Hnd. rewrite buildSchema_map by assumption. split.
    + unfold Object_keys. rewrite map_map. reflexivity.
    + intros k s E. rewrite own_get_map, E. reflexivity.
  - intros docs stats k s E. apply collect_all_Some in E. subst stats.
    apply replay_types_NoDup. discriminate.
  - reflexivity.
Qed.

Lemma buildSchema_entries_witness :
  own_get "b" (buildSchema [("a", mkStat 2 ["string"]); ("b", mkStat 1 ["null"; "integer"])] 2) =
  Some (mkField 1 true ["null"; "integer"]).
Proof.
  refine (proj2 (proj1 buildSchema_entries
                   [("a", mkStat 2 ["string"]); ("b", mkStat 1 ["null"; "integer"])] 2 _)
            "b" (mkStat 1 ["null"; "integer"]) _).
  - repeat constructor; simpl; intuition discriminate.
  - reflexivity.
Defined.

(** ** [JSON.stringify] tells field maps apart *)

Lemma append_assoc (a b c : string) : ((a ++ b) ++ c = a ++ (b ++ c))%string.
Proof. induction a as [|x a IH]; simpl; [reflexivity | now rewrite IH]. Qed.

Lemma unescape_escape c r : unescape_char (escape_char c ++ r) = Some (c, r).
Proof. destruct c as [[] [] [] [] [] [] [] []]; reflexivity. Qed.

Lemma escape_inj_app : forall s1 s2 r1 r2,
  (escape s1 ++ String dquote r1 = escape s2 ++ String dquote r2)%string ->
  s1 = s2 /\ r1 = r2.
Proof.
  induction s1 as [|c1 s1 IH]; intros [|c2 s2] r1 r2 H; cbn [escape] in H;
    rewrite ?append_assoc in H.
  - injection H as ->. auto.
  - apply (f_equal unescape_char) in H. rewrite unescape_escape in H. discriminate H.
  - apply (f_equal unescape_char) in H. rewrite unescape_escape in H. discriminate H.
  - apply (f_equal unescape_char) in H. rewrite !unescape_escape in H.
    injection H as -> H. apply IH in H as [-> ->]. auto.
Qed.

Lemma JSON_string_app s r :
  (JSON_string s ++ r = String dquote (escape s ++ String dquote r))%string.
Proof. unfold JSON_string. simpl. now rewrite append_assoc. Qed.

Lemma JSON_string_inj_app s1 s2 r1 r2 :
  (JSON_string s1 ++ r1 = JSON_string s2 ++ r2)%string -> s1 = s2 /\ r1 = r2.
Proof.
  rewrite !JSON_string_app. intros H. injection H as H.
  now apply escape_inj_app.
Qed.

Lemma uint_inj_app : forall d1 d2 r1 r2,
  (NilEmpty.string_of_uint d1 ++ String "," r1 =
   NilEmpty.string_of_uint d2 ++ String "," r2)%string ->
  d1 = d2 /\ r1 = r2.
Proof.
  induction d1 as [|d1 IH|d1 IH|d1 IH|d1 IH|d1 IH|d1 IH|d1 IH|d1 IH|d1 IH|d1 IH];
    intros [|d2|d2|d2|d2|d2|d2|d2|d2|d2|d2] r1 r2 H; simpl in H;
    try discriminate H;
    injection H as H; try (apply IH in H as [-> ->]); subst; auto.
Qed.

Lemma JSON_number_inj_app n1 n2 r1 r2 :
  (JSON_number n1 ++ String "," r1 = JSON_number n2 ++ String "," r2)%string ->
  n1 = n2 /\ r1 = r2.
Proof.
  unfold JSON_number. intros H. apply uint_inj_app in H as [H ->].
  split; auto. now apply DecimalNat.Unsigned.to_uint_inj.
Qed.

(** A comma-separated list whose items all open with a quote and can be told
    apart, closed by a bracket, determines its items. *)
Section Separated.
Context {A : Type} (pr : A -> string).
Hypothesis pr_inj : forall a1 a2 r1 r2,
  (pr a1 ++ r1 = pr a2 ++ r2)%string -> a1 = a2 /\ r1 = r2.
Hypothesis pr_head : forall a r, exists r', (pr a ++ r)%string = String dquote r'.
Variable close : ascii.
Hypothesis close_not_comma : close <> ","%char.
Hypothesis close_not_quote : close <> dquote.

Lemma concat_cons_app a l r :
  (String.concat "," (map pr (a :: l)) ++ r)%string =
  (pr a ++ match l with
           | [] => r
           | _ :: _ => String "," (String.concat "," (map pr l) ++ r)
           end)%string.
Proof.
  destruct l as [|b l]; [reflexivity|].
  cbn [map String.concat]. now rewrite append_assoc.
Qed.

Lemma concat_inj_app : forall l1 l2 r1 r2,
  (String.concat "," (map pr l1) ++ String close r1 =
   String.concat "," (map pr l2) ++ String close r2)%string ->
  l1 = l2 /\ r1 = r2.
Proof.
  induction l1 as [|a1 l1 IH]; intros [|a2 l2] r1 r2 H.
  - injection H as ->. auto.
  - rewrite concat_cons_app in H.
    destruct (pr_head a2 (match l2 with
                          | [] => String close r2
                          | _ :: _ => String "," (String.concat "," (map pr l2) ++ String close r2)
                          end)) as [r' E].
    rewrite E in H. simpl in H. injection H as Hc _. contradiction.
  - rewrite concat_cons_app in H.
    destruct (pr_head a1 (match l1 with
                          | [] => String close r1
                          | _ :: _ => String "," (String.concat "," (map pr l1) ++ String close r1)
                          end)) as [r' E].
    rewrite E in H. simpl in H. injection H as Hc _. symmetry in Hc. contradiction.
  - rewrite !concat_cons_app in H. apply pr_inj in H as [-> H].
    destruct l1 as [|b1 l1], l2 as [|b2 l2].
    + injection H as ->. auto.
    + injection H as Hc _. contradiction.
    + injection H as Hc _. symmetry in Hc. contradiction.
    + injection H as H. apply (IH (b2 :: l2) r1 r2) in H as [-> ->]. auto.
Qed.
End Separated.

Lemma JSON_string_head s r : exists r', (JSON_string s ++ r)%string = String dquote r'.
Proof. rewrite JSON_string_app. eauto. Qed.

Lemma JSON_bool_inj_app b1 b2 r1 r2 :
  (JSON_bool b1 ++ r1 = JSON_bool b2 ++ r2)%string -> b1 = b2 /\ r1 = r2.
Proof.
  destruct b1, b2; simpl; intros H; try discriminate H; injection H as ->; auto.
Qed.

Lemma JSON_stringify_field_app f r :
  (JSON_stringify_field f ++ r)%string =
  ("{" ++ JSON_string "present" ++ ":" ++ JSON_number (present f)
       ++ "," ++ JSON_string "optional" ++ ":" ++ JSON_bool (optional f)
       ++ "," ++ JSON_string "types" ++ ":" ++ JSON_array (ftypes f) ++ "}" ++ r)%string.
Proof. unfold JSON_stringify_field. now rewrite !append_assoc. Qed.

Lemma JSON_stringify_field_inj_app f1 f2 r1 r2 :
  (JSON_stringify_field f1 ++ r1 = JSON_stringify_field f2 ++ r2)%string ->
  f1 = f2 /\ r1 = r2.
Proof.
  rewrite !JSON_stringify_field_app.
  destruct f1 as [n1 o1 t1], f2 as [n2 o2 t2]. cbn [present optional ftypes].
  intros H. cbn [JSON_string escape escape_char append] in H.
  injection H as H.
  apply JSON_number_inj_app in H as [-> H].
  injection H as H.
  apply JSON_bool_inj_app in H as [-> H].
  injection H as H. rewrite !append_assoc in H.
  apply (concat_inj_app JSON_string JSON_string_inj_app JSON_string_head) in H
    as [-> H]; try discriminate.
  injection H as ->. auto.
Qed.

Lemma JSON_property_inj_app kf1 kf2 r1 r2 :
  (JSON_property kf1 ++ r1 = JSON_property kf2 ++ r2)%string ->
  kf1 = kf2 /\ r1 = r2.
Proof.
  destruct kf1 as [k1 f1], kf2 as [k2 f2]. unfold JSON_property. cbn [fst snd].
  rewrite !append_assoc. intros H.
  apply JSON_string_inj_app in H as [-> H].
  remember (JSON_stringify_field f1 ++ r1)%string as x1 eqn:E1.
  remember (JSON_stringify_field f2 ++ r2)%string as x2 eqn:E2.
  injection H as H. subst x1 x2.
  apply JSON_stringify_field_inj_app in H as [-> ->]. auto.
Qed.

Lemma JSON_property_head kf r :
  exists r', (JSON_property kf ++ r)%string = String dquote r'.
Proof. unfold JSON_property. rewrite append_assoc. apply JSON_string_head. Qed.

Lemma JSON_stringify_inj a b : JSON_stringify a = JSON_stringify b -> a = b.
Proof.
  unfold JSON_stringify. simpl. intros H. injection H as H.
  eapply (concat_inj_app JSON_property JSON_property_inj_app JSON_property_head);
    [| | exact H]; discriminate.
Qed.

(** ** C2: drift detection *)

(** C2, as the code has it.  [deepDifferent] compares the two serialized
    field maps as they stand and normalizes nothing: two field maps are
    reported as not different exactly when they are the same map, with the
    same paths in the same order and for each path the same [present], the
    same [optional] and the same sequence of type tags.  Two maps that differ
    only in the order of two tags of one path are reported as different. *)
Theorem deepDifferent_iff_not_identical :
  (forall a b : Fields, deepDifferent a b = false <-> a = b) /\
  (forall k n o t1 t2, t1 <> t2 ->
     deepDifferent [(k, mkField n o [t1; t2])] [(k, mkField n o [t2; t1])] = true).
Proof.
  assert (Hiff : forall a b : Fields, deepDifferent a b = false <-> a = b).
  { intros a b. unfold deepDifferent. rewrite negb_false_iff, String.eqb_eq.
    split; [apply JSON_stringify_inj | now intros ->]. }
  split; [exact Hiff|].
  intros k n o t1 t2 Hne.
  apply not_false_iff_true. rewrite Hiff. intros [= E]. contradiction.
Qed.

Lemma deepDifferent_iff_not_identical_witness :
  deepDifferent [("a", mkField 1 false ["integer"; "string"])]
                [("a", mkField 1 false ["string"; "integer"])] = true.
Proof.
  apply (proj2 deepDifferent_iff_not_identical "a" 1 false "integer" "string").
  discriminate.
Defined.

(** C2 as stated fails: these two maps agree on the paths, on [present], on
    [optional] and on the set of type tags of [a], and are reported as
    different. *)
Lemma deepDifferent_type_order_sensitive :
  ~ (forall a b, agree_up_to_order a b -> deepDifferent a b = false).
Proof.
  intros H.
  specialize (H [("a", mkField 1 false ["integer"; "string"])]
                [("a", mkField 1 false ["string"; "integer"])]).
  assert (Hd : deepDifferent [("a", mkField 1 false ["integer"; "string"])]
                 [("a", mkField 1 false ["string"; "integer"])] = true)
    by reflexivity.
  rewrite H in Hd; [discriminate Hd|].
  split; [reflexivity|].
  intros k fa fb. cbn [own_get].
  destruct (String.eqb "a" k); [|discriminate].
  intros [= <-] [= <-]. simpl. intuition auto.
Qed.

(** ** C6: diff symmetry *)

(** C6.  What [diffSchemas] reports as added from A to B is what it reports as
    removed from B to A, and the other way round, as the same sequences. *)
Theorem diffSchemas_added_removed (A B : Fields) :
  added (diffSchemas A B) = removed (diffSchemas B A) /\
  removed (diffSchemas A B) = added (diffSchemas B A).
Proof. split; reflexivity. Qed.

Example diffSchemas_b_to_c (fa fb fc : field) :
  diffSchemas [("a", fa); ("b", fb)] [("a", fa); ("c", fc)] =
  mkDiff ["c"] ["b"] [].
Proof.
  unfold diffSchemas. simpl. now rewrite String.eqb_refl.
Qed.

(** ** The version store *)

Lemma latest_loop : forall l best,
  match fold_left
          (fun best x =>
             match best with
             | None => Some x
             | Some y => if version y <? version x then Some x else Some y
             end) l best with
  | None => best = None /\ l = []
  | Some x =>
      (best = Some x \/ In x l) /\
      (forall y, best = Some y -> version y <= version x) /\
      (forall y, In y l -> version y <= version x)
  end.
Proof.
  induction l as [|a l IH]; intros best; simpl.
  - destruct best as [b|]; [|auto].
    split; [auto|]. split; [intros y [= ->]; lia | intros y []].
  - match goal with |- context [fold_left ?f l ?b] => specialize (IH b) end.
    destruct (fold_left _ l _) as [x|].
    + destruct IH as (Hin & Hbest & Hall).
      destruct best as [b|].
      * destruct (version b <? version a) eqn:E.
        -- apply Nat.ltb_lt in E. pose proof (Hbest a eq_refl).
           split; [destruct Hin as [[= ->]|]; auto|].
           split; [intros y [= ->]; lia|].
           intros y [<-|Hy]; auto.
        -- apply Nat.ltb_ge in E. pose proof (Hbest b eq_refl).
           split; [destruct Hin as [[= ->]|]; auto|].
           split; [intros y [= ->]; lia|].
           intros y [<-|Hy]; [lia|auto].
      * split; [destruct Hin as [[= ->]|]; auto|].
        split; [discriminate|].
        intros y [<-|Hy]; auto.
    + destruct IH as [Hb _]. destruct best as [b|]; [|discriminate Hb].
      destruct (version b <? version a); discriminate Hb.
Qed.

Lemma latest_none l : SchemaVersion_latest l = None -> l = [].
Proof.
  unfold SchemaVersion_latest. intros H.
  pose proof (latest_loop l None) as L. rewrite H in L. apply L.
Qed.

Lemma latest_max l x :
  SchemaVersion_latest l = Some x ->
  In x l /\ forall y, In y l -> version y <= version x.
Proof.
  unfold SchemaVersion_latest. intros H.
  pose proof (latest_loop l None) as L. rewrite H in L.
  destruct L as ([Hb|Hin] & _ & Hall); [discriminate Hb|auto].
Qed.

Lemma next_version_unused l :
  existsb (fun x => version x =? next_version (SchemaVersion_latest l)) l = false.
Proof.
  apply not_true_iff_false. intros H.
  apply existsb_exists in H as (x & Hin & E). apply Nat.eqb_eq in E.
  destruct (SchemaVersion_latest l) as [y|] eqn:L.
  - apply latest_max in L as [_ Hall]. specialize (Hall x Hin). simpl in E. lia.
  - apply latest_none in L. subst l. destruct Hin.
Qed.

Lemma create_after_latest unique_version l total newSchema :
  SchemaVersion_create unique_version
    (mkVersion (next_version (SchemaVersion_latest l)) newSchema total "auto") l =
  Some (l ++ [mkVersion (next_version (SchemaVersion_latest l)) newSchema total "auto"]).
Proof.
  unfold SchemaVersion_create. cbn [version].
  now rewrite next_version_unused, andb_false_r.
Qed.

(** The direct reading of [inferAndMaybeCreateVersion] is the invocation
    resumed three times with nothing in between. *)
Lemma run_alone_infer unique_version sampleSize db :
  run_alone 3 unique_version db (AwaitSamples sampleSize) =
  (snd (inferAndMaybeCreateVersion unique_version sampleSize db),
   Settled (fst (inferAndMaybeCreateVersion unique_version sampleSize db))).
Proof.
  unfold inferAndMaybeCreateVersion. cbn [run_alone is_settled task_step].
  destruct (List.length _ =? 0); [reflexivity|].
  destruct (collect_all _) as [stats|]; [|reflexivity].
  cbn [run_alone is_settled task_step schemaVersions rawRecords].
  destruct (needs_version _ _); [|reflexivity].
  cbn [run_alone is_settled task_step schemaVersions rawRecords].
  destruct (SchemaVersion_create _ _ _); reflexivity.
Qed.

(** ** C9, C4: one invocation *)

(** C9.  With no raw record to sample, [inferAndMaybeCreateVersion] resolves
    with [null] (it does not reject) and leaves the database as it was. *)
Theorem no_sample_no_version (unique_version : bool) (sampleSize : nat) (db : DB) :
  rawRecords db = [] ->
  inferAndMaybeCreateVersion unique_version sampleSize db = (Resolved None, db).
Proof.
  intros H. unfold inferAndMaybeCreateVersion, RawRecord_recent. rewrite H.
  now rewrite firstn_nil.
Qed.

Lemma no_sample_no_version_witness :
  inferAndMaybeCreateVersion true 30 (mkDB [] [mkVersion 4 [] 12 "auto"]) =
  (Resolved None, mkDB [] [mkVersion 4 [] 12 "auto"]).
Proof. apply (no_sample_no_version true 30). reflexivity. Defined.

(** C4 fails on the code.  A sample that holds the document
    [{"constructor": 1}] is not empty and there is no snapshot yet, so C4 has
    the call create and return version 1.  The code rejects instead:
    [stats["constructor"]] finds the member inherited from [Object.prototype],
    no entry is made, [.types.add] throws, and nothing is stored, with or
    without the uniqueness constraint. *)
Theorem infer_rejects_prototype_key :
  let db := mkDB [mkRaw (Obj [("constructor", int 1)]) 5] [] in
  RawRecord_recent 30 (rawRecords db) <> [] /\
  SchemaVersion_latest (schemaVersions db) = None /\
  forall unique_version,
    inferAndMaybeCreateVersion unique_version 30 db = (Rejected, db).
Proof.
  cbv zeta. split; [discriminate|]. split; [reflexivity|].
  intros unique_version. reflexivity.
Qed.

(** ** C3: concurrent invocations *)

Lemma filter_created_middle before t after :
  List.length (filter created (before ++ t :: after)) =
  List.length (filter created before) + (if created t then 1 else 0) +
  List.length (filter created after).
Proof.
  rewrite filter_app, length_app. simpl. destruct (created t); simpl; lia.
Qed.

Lemma Forall_middle {A : Type} (P : A -> Prop) before t after :
  Forall P (before ++ t :: after) <-> P t /\ Forall P before /\ Forall P after.
Proof.
  rewrite Forall_app. split.
  - intros [Hb Ha]. inversion Ha; subst. auto.
  - intros (Ht & Hb & Ha). auto.
Qed.

Lemma length_middle {A : Type} before (t t' : A) after :
  List.length (before ++ t' :: after) = List.length (before ++ t :: after).
Proof. rewrite !length_app. reflexivity. Qed.

Lemma create_duplicate doc l :
  SchemaVersion_create true doc (l ++ [doc]) = None.
Proof.
  unfold SchemaVersion_create. rewrite existsb_app. simpl.
  now rewrite Nat.eqb_refl, orb_true_r.
Qed.

Lemma one_create_step db0 doc n s s' :
  SchemaVersion_create true doc (schemaVersions db0) =
    Some (schemaVersions db0 ++ [doc]) ->
  sys_step true s s' ->
  one_create_inv db0 doc n s -> one_create_inv db0 doc n s'.
Proof.
  intros Hfree Hstep. destruct Hstep as [db before t after db' t' Hpending Hstep].
  unfold one_create_inv. intros (Hraw & Hlen & Hcases).
  rewrite (length_middle before t t' after).
  destruct Hcases as [[Hstore Hall] | (Hstore & Hall & Hone)].
  - apply Forall_middle in Hall as (-> & Hb & Ha).
    cbn [task_step] in Hstep. rewrite Hstore, Hfree in Hstep.
    injection Hstep as <- <-. cbn [rawRecords schemaVersions].
    split; [assumption|]. split; [assumption|]. right.
    split; [reflexivity|]. split.
    + apply Forall_middle. split; [auto|].
      split; eapply Forall_impl; try eassumption; simpl; auto.
    + rewrite filter_created_middle.
      rewrite !(proj2 (List.length_zero_iff_nil _)); [reflexivity| |].
      * clear - Ha. induction Ha as [|x l -> _ IH]; simpl; auto.
      * clear - Hb. induction Hb as [|x l -> _ IH]; simpl; auto.
  - apply Forall_middle in Hall as (Ht & Hb & Ha).
    destruct Ht as [-> | [-> | ->]]; try discriminate Hpending.
    cbn [task_step] in Hstep. rewrite Hstore, create_duplicate in Hstep.
    injection Hstep as <- <-.
    split; [assumption|]. split; [assumption|]. right.
    split; [assumption|]. split.
    + apply Forall_middle. auto.
    + rewrite filter_created_middle in *. exact Hone.
Qed.

Lemma one_create_steps db0 doc n s s' :
  SchemaVersion_create true doc (schemaVersions db0) =
    Some (schemaVersions db0 ++ [doc]) ->
  sys_steps true s s' ->
  one_create_inv db0 doc n s -> one_create_inv db0 doc n s'.
Proof.
  intros Hfree Hsteps. induction Hsteps as [s | s1 s2 s3 Hstep _ IH]; auto.
  intros Hinv. apply IH. eapply one_create_step; eassumption.
Qed.

Lemma every_create_step db0 doc n s s' :
  sys_step false s s' ->
  every_create_inv db0 doc n s -> every_create_inv db0 doc n s'.
Proof.
  intros Hstep. destruct Hstep as [db before t after db' t' Hpending Hstep].
  unfold every_create_inv. intros (Hraw & Hlen & Hstore & Hall).
  rewrite (length_middle before t t' after).
  apply Forall_middle in Hall as (Ht & Hb & Ha).
  destruct Ht as [-> | ->]; try discriminate Hpending.
  cbn [task_step SchemaVersion_create andb] in Hstep.
  injection Hstep as <- <-. cbn [rawRecords schemaVersions].
  split; [assumption|]. split; [assumption|]. split.
  - rewrite Hstore, !filter_created_middle. cbn [created].
    rewrite <- app_assoc. f_equal.
    replace (List.length (filter created before) + 1 + List.length (filter created after))
      with (S (List.length (filter created before) + 0 + List.length (filter created after)))
      by lia.
    rewrite <- repeat_cons. reflexivity.
  - apply Forall_middle. auto.
Qed.

Lemma every_create_steps db0 doc n s s' :
  sys_steps false s s' ->
  every_create_inv db0 doc n s -> every_create_inv db0 doc n s'.
Proof.
  intros Hsteps. induction Hsteps as [s | s1 s2 s3 Hstep _ IH]; auto.
  intros Hinv. apply IH. eapply every_create_step; eassumption.
Qed.

(** Resuming the invocations from left to right is a schedule, and it settles
    invocations that wait for a creation. *)
Lemma run_in_order_steps u : forall ts settled_before db,
  Forall (fun t => is_settled t = false) ts ->
  sys_steps u (db, settled_before ++ ts)
    (fst (run_in_order u db ts), settled_before ++ snd (run_in_order u db ts)).
Proof.
  induction ts as [|t ts IH]; intros done db Hall; simpl.
  - constructor.
  - inversion Hall as [|? ? Ht Hts]; subst.
    destruct (task_step u db t) as [db1 t1] eqn:E1.
    specialize (IH (done ++ [t1]) db1 Hts).
    destruct (run_in_order u db1 ts) as [db2 ts2]. simpl in *.
    rewrite <- !app_assoc in IH. simpl in IH.
    eapply steps_more; [|exact IH].
    now constructor.
Qed.

Lemma run_in_order_settles u doc : forall n db,
  Forall (fun t => is_settled t = true) (snd (run_in_order u db (repeat (AwaitCreate doc) n))).
Proof.
  induction n as [|n IH]; intros db; simpl; [constructor|].
  destruct (SchemaVersion_create u doc (schemaVersions db)) as [vs|].
  - specialize (IH (mkDB (rawRecords db) vs)).
    destruct (run_in_order _ _ _). constructor; auto.
  - specialize (IH db).
    destruct (run_in_order _ _ _). constructor; auto.
Qed.

Lemma steps_to_create u total cand : forall n before db,
  needs_version (SchemaVersion_latest (schemaVersions db)) cand = true ->
  sys_steps u
    (db, before ++ repeat (AwaitLatest total cand) n)
    (db, before ++ repeat
           (AwaitCreate
              (mkVersion (next_version (SchemaVersion_latest (schemaVersions db)))
                 cand total "auto")) n).
Proof.
  induction n as [|n IH]; intros before db Hneed; simpl; [constructor|].
  eapply steps_more.
  - apply resume; [reflexivity|]. cbn [task_step]. rewrite Hneed. reflexivity.
  - specialize (IH (before ++ [AwaitCreate
              (mkVersion (next_version (SchemaVersion_latest (schemaVersions db)))
                 cand total "auto")]) db Hneed).
    rewrite <- !app_assoc in IH. exact IH.
Qed.

(** C3.  Under the uniqueness constraint of the version store: [n]
    invocations (2 or more) that have computed the same candidate, which the
    latest snapshot calls for, can all read that same latest snapshot and
    then wait for the creation of the same next version; some schedule settles
    them all; and however their creations are scheduled, once all have
    settled exactly one snapshot has been added to the store, one invocation
    has returned it and every other one has been rejected. *)
Theorem concurrent_creates_persist_one (n : nat) (db : DB) (total : nat) (cand : Fields) :
  let latest := SchemaVersion_latest (schemaVersions db) in
  let doc := mkVersion (next_version latest) cand total "auto" in
  2 <= n ->
  needs_version latest cand = true ->
  sys_steps true (db, repeat (AwaitLatest total cand) n)
                 (db, repeat (AwaitCreate doc) n) /\
  (exists db' ts',
     sys_steps true (db, repeat (AwaitCreate doc) n) (db', ts') /\
     Forall (fun t => is_settled t = true) ts') /\
  (forall db' ts',
     sys_steps true (db, repeat (AwaitCreate doc) n) (db', ts') ->
     Forall (fun t => is_settled t = true) ts' ->
     schemaVersions db' = schemaVersions db ++ [doc] /\
     rawRecords db' = rawRecords db /\
     List.length ts' = n /\
     List.length (filter created ts') = 1 /\
     Forall (fun t => t = Settled (Resolved (Some doc)) \/ t = Settled Rejected) ts').
Proof.
  intros latest doc Hn Hneed. split; [|split].
  - apply (steps_to_create true total cand n [] db Hneed).
  - exists (fst (run_in_order true db (repeat (AwaitCreate doc) n))),
           (snd (run_in_order true db (repeat (AwaitCreate doc) n))).
    split; [|apply run_in_order_settles].
    apply (run_in_order_steps true (repeat (AwaitCreate doc) n) [] db).
    apply Forall_forall. intros t Ht. apply repeat_spec in Ht. now subst t.
  - intros db' ts' Hsteps Hsettled.
    assert (Hinit : one_create_inv db doc n (db, repeat (AwaitCreate doc) n)).
    { split; [reflexivity|]. split; [apply repeat_length|]. left.
      split; [reflexivity|].
      apply Forall_forall. intros t Ht. now apply repeat_spec in Ht. }
    apply (one_create_steps db doc n _ _
             (create_after_latest true (schemaVersions db) total cand) Hsteps)
      in Hinit.
    destruct Hinit as (Hraw & Hlen & [[_ Hall] | (Hstore & Hall & Hone)]).
    + destruct ts' as [|t ts']; [simpl in Hlen; lia|].
      inversion Hall; subst. inversion Hsettled; subst. discriminate.
    + repeat (split; [assumption|]).
      rewrite Forall_forall in *. intros t Ht.
      destruct (Hall t Ht) as [-> | H]; [|exact H].
      specialize (Hsettled _ Ht). discriminate Hsettled.
Qed.

Lemma concurrent_creates_persist_one_witness :
  exists db' ts',
    sys_steps true
      (mkDB [mkRaw (Obj [("a", int 1)]) 5] [],
       repeat (AwaitCreate (mkVersion 1 [("a", mkField 1 false ["integer"])] 1 "auto")) 2)
      (db', ts') /\
    Forall (fun t => is_settled t = true) ts'.
Proof.
  refine (proj1 (proj2 (concurrent_creates_persist_one 2
            (mkDB [mkRaw (Obj [("a", int 1)]) 5] [])
            1 [("a", mkField 1 false ["integer"])] _ _))).
  - lia.
  - reflexivity.
Defined.

(** Without the constraint the read-then-write of [inferAndMaybeCreateVersion]
    stores the snapshot once for every invocation. *)
Lemma concurrent_creates_without_constraint (n : nat) (db : DB) (doc : SchemaVersion) :
  forall db' ts',
    sys_steps false (db, repeat (AwaitCreate doc) n) (db', ts') ->
    Forall (fun t => is_settled t = true) ts' ->
    schemaVersions db' = schemaVersions db ++ repeat doc n.
Proof.
  intros db' ts' Hsteps Hsettled.
  assert (Hinit : every_create_inv db doc n (db, repeat (AwaitCreate doc) n)).
  { split; [reflexivity|]. split; [apply repeat_length|]. split.
    - replace (filter created (repeat (AwaitCreate doc) n)) with (@nil task).
      + simpl. now rewrite app_nil_r.
      + clear. induction n; simpl; auto.
    - apply Forall_forall. intros t Ht. apply repeat_spec in Ht. auto. }
  apply (every_create_steps db doc n _ _ Hsteps) in Hinit.
  destruct Hinit as (_ & Hlen & Hstore & Hall).
  rewrite Hstore. f_equal. f_equal. rewrite <- Hlen. f_equal.
  clear - Hall Hsettled.
  induction ts' as [|t ts' IH]; [reflexivity|].
  inversion Hall as [|? ? Ht Hall']; inversion Hsettled as [|? ? Hs Hsettled']; subst.
  destruct Ht as [-> | ->]; [discriminate Hs|].
  simpl. f_equal. auto.
Qed.

(** * Further properties of the inference engine *)

(** ** [typeName] *)

(** [typeName] answers with one of the seven tags; [integer] is the answer
    exactly for the numbers [Number.isInteger] accepts, [number] exactly for
    the other numbers (NaN and the infinities among them), [null] exactly
    for [null] and [undefined]. *)
Theorem typeName_tags (v : value) :
  In (typeName v) type_tags /\
  (typeName v = "integer" <-> Number_isInteger v = true) /\
  (typeName v = "number" <-> exists n, v = Num n /\ Number_isInteger v = false) /\
  (typeName v = "null" <-> nullish v = true).
Proof.
  destruct v as [| | b | n | s | items | props];
    try (split; [simpl; tauto|];
         split; [split; discriminate|];
         split; [split; [discriminate | intros (n & E & _); discriminate E]|];
         split; (reflexivity || discriminate)).
  unfold typeName. cbn [nullish Array_isArray typeof String.eqb Ascii.eqb Bool.eqb].
  destruct (Number_isInteger (Num n)) eqn:E.
  - split; [simpl; tauto|]. split; [tauto|].
    split; [split; [discriminate | intros (m & _ & H); discriminate H]|].
    split; discriminate.
  - split; [simpl; tauto|]. split; [split; discriminate|].
    split; [split; [eauto | reflexivity]|].
    split; discriminate.
Qed.


(** ** What [collect] keeps *)

Lemma Set_add_In x t s : In x (Set_add t s) <-> In x s \/ x = t.
Proof.
  unfold Set_add, includes. destruct (existsb (String.eqb t) s) eqn:E.
  - split; [auto|]. intros [H| ->]; [exact H|].
    apply existsb_exists in E as (y & Hy & Ey).
    apply String.eqb_eq in Ey. now subst y.
  - rewrite in_app_iff. simpl. intuition auto.
Qed.

Lemma Set_add_length t s :
  List.length s <= List.length (Set_add t s) <= S (List.length s).
Proof.
  unfold Set_add. destruct (includes s t); [lia|].
  rewrite length_app. simpl. lia.
Qed.

Lemma types_at_record k t st p :
  types_at p (record k t st) =
  if string_dec k p then Set_add t (types_at p st) else types_at p st.
Proof.
  destruct (string_dec k p) as [->|Hne].
  - unfold types_at at 1. now rewrite own_get_record_same.
  - unfold types_at. now rewrite own_get_record_other.
Qed.

Lemma replay_types_In p t : forall vs st,
  In t (types_at p (replay vs st)) <-> In t (types_at p st) \/ In (p, t) vs.
Proof.
  induction vs as [|[k t'] vs IH]; intros st; simpl.
  - tauto.
  - rewrite IH, types_at_record. destruct (string_dec k p) as [->|Hne].
    + rewrite Set_add_In. split.
      * intros [[H| ->]|H]; auto.
      * intros [H|[[= ->]|H]]; auto.
    + split.
      * intros [H|H]; auto.
      * intros [H|[[= -> ->]|H]]; auto. contradiction.
Qed.

Lemma replay_keys_kept p vs st :
  In p (Object_keys st) -> In p (Object_keys (replay vs st)).
Proof. rewrite replay_In. auto. Qed.

(** When [collect] returns normally it has only added to the statistics map
    it was given: every key that was there is still there, no count has gone
    down and no type tag is lost. *)
Theorem collect_only_grows (o : value) (st : Stats) (prefix : string) (st' : Stats) :
  collect o st prefix = Some st' ->
  (forall p, In p (Object_keys st) -> In p (Object_keys st')) /\
  (forall p, count_at p st <= count_at p st') /\
  (forall p t, In t (types_at p st) -> In t (types_at p st')).
Proof.
  intros E. apply collect_Some in E as [_ ->]. split; [|split].
  - intros p. apply replay_keys_kept.
  - intros p. rewrite count_at_replay. lia.
  - intros p t H. apply replay_types_In. auto.
Qed.

Lemma collect_only_grows_witness :
  collect (Obj [("a", int 1)]) [("a", mkStat 4 ["string"])] "" =
    Some [("a", mkStat 5 ["string"; "integer"])] /\
  In "string" (types_at "a" [("a", mkStat 5 ["string"; "integer"])]).
Proof.
  split; [reflexivity|].
  apply (proj2 (proj2 (collect_only_grows (Obj [("a", int 1)])
                         [("a", mkStat 4 ["string"])] ""
                         [("a", mkStat 5 ["string"; "integer"])] eq_refl))).
  simpl. auto.
Defined.

(** ** The keys [collect] touches *)

Lemma prefix_refl s : String.prefix s s = true.
Proof.
  induction s as [|c s IH]; simpl; auto.
  destruct (ascii_dec c c); [exact IH | contradiction].
Qed.

Lemma prefix_append s x : String.prefix s (s ++ x) = true.
Proof.
  induction s as [|c s IH]; simpl; [now destruct x|].
  destruct (ascii_dec c c); [exact IH | contradiction].
Qed.

Lemma prefix_trans : forall a b c,
  String.prefix a b = true -> String.prefix b c = true -> String.prefix a c = true.
Proof.
  induction a as [|x a IH]; intros b c Hab Hbc; [now destruct c|].
  destruct b as [|y b]; [discriminate Hab|].
  destruct c as [|z c]; [discriminate Hbc|].
  simpl in *.
  destruct (ascii_dec x y) as [->|]; [|discriminate Hab].
  destruct (ascii_dec y z) as [->|]; [|discriminate Hbc].
  eauto.
Qed.

Lemma truthy_append a b : truthy a = true -> truthy (a ++ b) = true.
Proof. destruct a; [discriminate | reflexivity]. Qed.

Lemma leaf_key_truthy prefix : truthy prefix = true -> leaf_key prefix = prefix.
Proof. unfold leaf_key. now intros ->. Qed.

Lemma child_path_truthy prefix k :
  truthy prefix = true -> child_path prefix k = (prefix ++ "." ++ k)%string.
Proof. unfold child_path. now intros ->. Qed.

Lemma first_items_under path : forall items n,
  Forall (fun v => forall prefix, truthy prefix = true ->
                   Forall (fun kt => String.prefix prefix (fst kt) = true)
                          (visits v prefix)) items ->
  truthy path = true ->
  Forall (fun kt => String.prefix path (fst kt) = true)
         (first_items n (fun item => visits item (element_path path)) items).
Proof.
  induction items as [|it items IH]; intros [|n] Hall Hp; try constructor.
  inversion Hall as [|? ? Hit Hrest]; subst.
  cbn [first_items]. apply Forall_app. split; [|auto].
  eapply Forall_impl; [|apply Hit; apply truthy_append, Hp].
  intros kt H. eapply prefix_trans; [|exact H]. apply prefix_append.
Qed.

Lemma visits_under_prefix : forall v prefix,
  truthy prefix = true ->
  Forall (fun kt => String.prefix prefix (fst kt) = true) (visits v prefix).
Proof.
  induction v using value_field_ind; intros prefix Hp;
    try (constructor; [|constructor]; cbn [fst];
         rewrite leaf_key_truthy by assumption; apply prefix_refl);
    try constructor.
  rewrite visits_Obj.
  induction H as [|[k v] props [Hv Hitems] _ IH]; [constructor|].
  cbn [flat_map]. apply Forall_app. split; [|exact IH]. clear IH.
  unfold visits_field. cbn [fst snd] in *.
  assert (Hpath : truthy (child_path prefix k) = true).
  { rewrite child_path_truthy by assumption. now apply truthy_append. }
  assert (Hunder : String.prefix prefix (child_path prefix k) = true).
  { rewrite child_path_truthy by assumption. apply prefix_append. }
  constructor; [exact Hunder|].
  apply Forall_app. split.
  - destruct (typeof v =? "object")%string; [|constructor].
    eapply Forall_impl; [|apply Hv, Hpath].
    intros kt Hkt. eapply prefix_trans; eassumption.
  - destruct v; try constructor.
    eapply Forall_impl;
      [|apply first_items_under; [apply Hitems; reflexivity | exact Hpath]].
    intros kt Hkt. eapply prefix_trans; eassumption.
Qed.

Lemma replay_untouched p : forall vs st,
  Forall (fun kt => fst kt <> p) vs -> own_get p (replay vs st) = own_get p st.
Proof.
  induction vs as [|[k t] vs IH]; intros st Hall; [reflexivity|].
  inversion Hall as [|? ? Hk Hrest]; subst.
  change (replay ((k, t) :: vs) st) with (replay vs (record k t st)).
  rewrite (IH _ Hrest). now apply own_get_record_other.
Qed.

Lemma includes_In l k : includes l k = true <-> In k l.
Proof.
  unfold includes. rewrite existsb_exists. split.
  - intros (x & Hx & E). apply String.eqb_eq in E. now subst x.
  - intros H. exists k. split; [exact H | apply String.eqb_refl].
Qed.

Lemma prefix_keeps_char c : forall a b,
  String.prefix a b = true ->
  In c (list_ascii_of_string a) -> In c (list_ascii_of_string b).
Proof.
  induction a as [|x a IH]; intros [|y b] Hab Hin; simpl in *;
    try contradiction; try discriminate.
  destruct (ascii_dec x y) as [->|]; [|discriminate Hab].
  destruct Hin as [->|Hin]; [now left | right; now apply IH].
Qed.

Lemma append_has_char c a b : In c (list_ascii_of_string (a ++ String c b)).
Proof. induction a as [|x a IH]; simpl; auto. Qed.

(** No member of [Object.prototype] has a dot in its name. *)
Lemma dotted_not_inherited k :
  In "."%char (list_ascii_of_string k) -> inherited k = false.
Proof.
  intros Hdot. apply not_true_iff_false. intros E.
  apply includes_In in E. unfold Object_prototype_names in E.
  repeat (destruct E as [<-|E]; [simpl in Hdot; intuition discriminate|]).
  destruct E.
Qed.

Lemma safe_not_inherited keys st :
  Forall (fun k => inherited k = false) keys -> safe keys st = true.
Proof.
  intros H. unfold safe. apply forallb_forall. intros k Hk.
  rewrite Forall_forall in H. now rewrite (H k Hk).
Qed.

(** Under a prefix that is not empty, the only key [collect] can touch that
    has no dot is the prefix itself. *)
Lemma visits_under_not_inherited v prefix :
  truthy prefix = true ->
  inherited prefix = false ->
  Forall (fun k => inherited k = false) (map fst (visits v prefix)).
Proof.
  intros Hp Hni.
  destruct v as [| | b | n | s | items | props];
    try constructor;
    try (cbn [fst]; now rewrite leaf_key_truthy);
    try constructor.
  rewrite visits_Obj. apply Forall_forall. intros key Hkey.
  apply in_map_iff in Hkey as (kt & <- & Hin).
  apply in_flat_map in Hin as ([k v] & _ & Hin).
  apply dotted_not_inherited.
  assert (Hpath : truthy (child_path prefix k) = true).
  { rewrite child_path_truthy by assumption. now apply truthy_append. }
  apply (prefix_keeps_char "."%char (child_path prefix k)).
  - unfold visits_field in Hin. cbn [fst snd] in Hin.
    destruct Hin as [<-|Hin]; [apply prefix_refl|].
    apply in_app_iff in Hin as [Hin|Hin].
    + destruct (typeof v =? "object")%string; [|destruct Hin].
      pose proof (visits_under_prefix v _ Hpath) as Hall.
      rewrite Forall_forall in Hall. now apply Hall.
    + destruct v; try destruct Hin.
      revert Hin. generalize 3. induction items as [|it items IH]; intros [|n] Hin;
        try destruct Hin.
      cbn [first_items] in Hin. apply in_app_iff in Hin as [Hin|Hin]; [|eauto].
      pose proof (visits_under_prefix it _
                    (truthy_append _ "[]" Hpath)) as Hall.
      rewrite Forall_forall in Hall. apply Hall in Hin.
      eapply prefix_trans; [apply prefix_append | exact Hin].
  - rewrite child_path_truthy by assumption. apply append_has_char.
Qed.

(** Under a prefix that is not empty, [collect] reads and writes only entries
    whose key starts with that prefix: every other entry of the statistics
    map is left as it was.  It returns normally there unless the prefix
    itself names a member of [Object.prototype]. *)
Theorem collect_stays_under_prefix (o : value) (st : Stats) (prefix : string) :
  truthy prefix = true ->
  (inherited prefix = false -> exists st', collect o st prefix = Some st') /\
  (forall p st',
     String.prefix prefix p = false ->
     collect o st prefix = Some st' ->
     own_get p st' = own_get p st).
Proof.
  intros Hp. split.
  - intros Hni. rewrite collect_replay.
    rewrite safe_not_inherited by now apply visits_under_not_inherited.
    eauto.
  - intros p st' Hout E. apply collect_Some in E as [_ ->]. apply replay_untouched.
    eapply Forall_impl; [|apply visits_under_prefix, Hp].
    intros kt Hkt E. cbv beta in Hkt. rewrite E in Hkt. congruence.
Qed.

Lemma collect_stays_under_prefix_witness :
  collect (Obj [("city", Str "Pune")]) [("user.name", mkStat 2 ["string"])]
          "user.addresses[]" =
    Some [("user.name", mkStat 2 ["string"]);
          ("user.addresses[].city", mkStat 1 ["string"])] /\
  own_get "user.name"
    [("user.name", mkStat 2 ["string"]);
     ("user.addresses[].city", mkStat 1 ["string"])] =
  own_get "user.name" [("user.name", mkStat 2 ["string"])].
Proof.
  split; [reflexivity|].
  apply (proj2 (collect_stays_under_prefix (Obj [("city", Str "Pune")])
                  [("user.name", mkStat 2 ["string"])] "user.addresses[]" eq_refl)
           "user.name");
    reflexivity.
Defined.

(** ** The order of the sample *)

Lemma visits_all_perm docs docs' :
  Permutation docs docs' ->
  Permutation (flat_map (fun d => visits d "") docs)
              (flat_map (fun d => visits d "") docs').
Proof. intros H. now apply Permutation_flat_map. Qed.

Lemma replay_all_perm docs docs' p :
  Permutation docs docs' ->
  let stats := replay (flat_map (fun d => visits d "") docs) [] in
  let stats' := replay (flat_map (fun d => visits d "") docs') [] in
  (In p (Object_keys stats) <-> In p (Object_keys stats')) /\
  count_at p stats = count_at p stats' /\
  (forall t, In t (types_at p stats) <-> In t (types_at p stats')).
Proof.
  intros Hperm. apply visits_all_perm in Hperm. cbv zeta.
  split; [|split].
  - rewrite !replay_In. simpl.
    split; intros [[]|H]; right;
      eapply Permutation_in; try exact H;
      [apply Permutation_map, Hperm | apply Permutation_map, Permutation_sym, Hperm].
  - rewrite !count_at_replay. f_equal.
    apply Permutation_count_occ. now apply Permutation_map.
  - intros t. rewrite !replay_types_In. simpl.
    split; intros [[]|H]; right;
      [eapply Permutation_in; [exact Hperm | exact H]
      |eapply Permutation_in; [apply Permutation_sym, Hperm | exact H]].
Qed.

Lemma forallb_perm {A : Type} (f : A -> bool) l l' :
  Permutation l l' -> forallb f l = forallb f l'.
Proof.
  induction 1 as [|x l l' _ IH|x y l|l l' l'' _ IH1 _ IH2]; cbn [forallb].
  - reflexivity.
  - now rewrite IH.
  - now destruct (f x), (f y).
  - now rewrite IH1.
Qed.

(** A document that makes [collect] throw does so wherever it stands in the
    sample. *)
Lemma collect_all_throws_perm docs docs' :
  Permutation docs docs' ->
  (collect_all docs = None <-> collect_all docs' = None).
Proof.
  intros Hperm. apply visits_all_perm in Hperm.
  rewrite !collect_all_replay, !safe_fresh.
  rewrite (forallb_perm _ _ _ (Permutation_map fst Hperm)).
  destruct (forallb _ _); [split; discriminate | tauto].
Qed.

Lemma buildSchema_keys stats total :
  NoDup (Object_keys stats) ->
  Object_keys (buildSchema stats total) = Object_keys stats.
Proof.
  intros Hnd. rewrite buildSchema_map by assumption.
  unfold Object_keys. now rewrite map_map.
Qed.

Lemma buildSchema_lookup stats total p f :
  NoDup (Object_keys stats) ->
  own_get p (buildSchema stats total) = Some f ->
  exists s, own_get p stats = Some s /\ f = field_of total s.
Proof.
  intros Hnd. rewrite buildSchema_map by assumption.
  rewrite own_get_map. destruct (own_get p stats) as [s|]; [|discriminate].
  intros [= <-]. eauto.
Qed.

(** The order in which the sampled payloads are profiled changes neither
    whether profiling throws, nor the paths found, nor the count of a path,
    nor the set of type tags of a path; the schemas built from the same
    sample in two orders agree up to the order of their paths and of the tags
    of each path. *)
Theorem collect_all_sample_order (docs docs' : list value) (total : nat) :
  Permutation docs docs' ->
  (collect_all docs = None <-> collect_all docs' = None) /\
  forall stats stats',
    collect_all docs = Some stats ->
    collect_all docs' = Some stats' ->
    (forall p,
       count_at p stats = count_at p stats' /\
       (forall t, In t (types_at p stats) <-> In t (types_at p stats'))) /\
    agree_up_to_order (buildSchema stats total) (buildSchema stats' total).
Proof.
  intros Hperm. split; [now apply collect_all_throws_perm|].
  intros stats stats' E E'.
  apply collect_all_Some in E. apply collect_all_Some in E'. subst stats stats'.
  assert (Hnd : forall l, NoDup (Object_keys (replay l []))).
  { intros l. apply replay_NoDup. constructor. }
  split; [intros p; apply (replay_all_perm docs docs' p Hperm)|].
  split.
  - intros k. rewrite !buildSchema_keys by apply Hnd.
    apply (replay_all_perm docs docs' k Hperm).
  - intros k fa fb Ha Hb.
    apply buildSchema_lookup in Ha as (sa & Ea & ->); [|apply Hnd].
    apply buildSchema_lookup in Hb as (sb & Eb & ->); [|apply Hnd].
    destruct (replay_all_perm docs docs' k Hperm) as (_ & Hc & Ht).
    cbv zeta in Hc, Ht.
    rewrite (count_at_get _ _ _ Ea), (count_at_get _ _ _ Eb) in Hc.
    unfold types_at in Ht. rewrite Ea, Eb in Ht.
    cbn [field_of present optional ftypes]. rewrite Hc. auto.
Qed.

Lemma collect_all_sample_order_witness :
  agree_up_to_order
    (buildSchema [("a", mkStat 2 ["integer"; "string"])] 2)
    (buildSchema [("a", mkStat 2 ["string"; "integer"])] 2).
Proof.
  apply (proj2 (collect_all_sample_order
                  [Obj [("a", int 1)]; Obj [("a", Str "x")]]
                  [Obj [("a", Str "x")]; Obj [("a", int 1)]] 2
                  (perm_swap _ _ _))
           [("a", mkStat 2 ["integer"; "string"])]
           [("a", mkStat 2 ["string"; "integer"])]);
    reflexivity.
Defined.


(** ** What the built schema says of the sample *)

Lemma filter_length_lt {A : Type} (f : A -> bool) : forall l,
  List.length (filter f l) < List.length l <-> exists x, In x l /\ f x = false.
Proof.
  induction l as [|a l IH]; simpl.
  - split; [lia | intros (x & [] & _)].
  - pose proof (filter_length_le f l) as Hle.
    destruct (f a) eqn:E; simpl.
    + rewrite <- Nat.succ_lt_mono, IH. split.
      * intros (x & Hx & Hf). eauto.
      * intros (x & [<-|Hx] & Hf); [congruence | eauto].
    + split; [eauto | lia].
Qed.

Lemma collect_all_NoDup docs stats :
  collect_all docs = Some stats -> NoDup (Object_keys stats).
Proof.
  intros E. apply collect_all_Some in E. subst stats.
  apply replay_NoDup. constructor.
Qed.

Lemma buildSchema_get docs stats total p f :
  collect_all docs = Some stats ->
  own_get p (buildSchema stats total) = Some f ->
  exists s, own_get p stats = Some s /\ f = field_of total s.
Proof.
  intros E. apply buildSchema_lookup. now apply (collect_all_NoDup docs).
Qed.

Lemma plain_docs_count p : forall docs,
  Forall (fun d => array_field_keys d "" = [] /\ NoDup (reachable_paths d "")) docs ->
  count_occ string_dec (map fst (flat_map (fun d => visits d "") docs)) p =
  List.length (filter (fun d => includes (reachable_paths d "") p) docs).
Proof.
  induction docs as [|d docs IH]; intros Hall; [reflexivity|].
  inversion Hall as [|? ? [Hnone Hnd] Hrest]; subst.
  cbn [flat_map filter]. rewrite map_app, count_occ_app, IH, visits_count, Hnone by assumption.
  cbn [count_occ]. rewrite Nat.add_0_r.
  destruct (includes (reachable_paths d "") p) eqn:E.
  - apply includes_In in E.
    rewrite (proj1 (NoDup_count_occ' string_dec _) Hnd p E). reflexivity.
  - assert (Hn : ~ In p (reachable_paths d "")).
    { intros H. apply includes_In in H. congruence. }
    rewrite (proj1 (count_occ_not_In string_dec _ _) Hn). reflexivity.
Qed.

(** For sampled documents without array-valued fields, each with pairwise
    distinct field paths, that are profiled without an exception: [present]
    of a path is the number of documents that have the path, never more than
    the size of the sample, and the path is marked [optional] exactly when
    some sampled document lacks it. *)
Theorem optional_means_missing (docs : list value) (stats : Stats) :
  Forall (fun d => array_field_keys d "" = [] /\ NoDup (reachable_paths d "")) docs ->
  collect_all docs = Some stats ->
  forall p f,
    own_get p (buildSchema stats (List.length docs)) = Some f ->
    present f =
      List.length (filter (fun d => includes (reachable_paths d "") p) docs) /\
    present f <= List.length docs /\
    (optional f = true <-> exists d, In d docs /\ ~ In p (reachable_paths d "")).
Proof.
  intros Hall E p f Hf. apply (buildSchema_get docs) in Hf as (s & Es & ->); [|exact E].
  cbn [present optional field_of].
  assert (Hc : count s =
               List.length (filter (fun d => includes (reachable_paths d "") p) docs)).
  { rewrite <- (count_at_get _ _ _ Es), (collect_all_Some _ _ E), count_at_replay.
    unfold count_at at 1. simpl. now apply plain_docs_count. }
  split; [exact Hc|]. split.
  - rewrite Hc. apply filter_length_le.
  - rewrite Nat.ltb_lt, Hc, filter_length_lt. split.
    + intros (d & Hd & Ed). exists d. split; [exact Hd|].
      intros H. apply includes_In in H. congruence.
    + intros (d & Hd & Hn). exists d. split; [exact Hd|].
      apply not_true_iff_false. intros Ed. apply includes_In in Ed. contradiction.
Qed.

Lemma optional_means_missing_witness :
  exists d, In d [Obj [("a", int 1)]; Obj [("a", int 2); ("b", Null)]] /\
            ~ In "b" (reachable_paths d "").
Proof.
  refine (proj1 (proj2 (proj2 (optional_means_missing
            [Obj [("a", int 1)]; Obj [("a", int 2); ("b", Null)]]
            [("a", mkStat 2 ["integer"]); ("b", mkStat 1 ["null"])] _ _
            "b" (mkField 1 true ["null"]) _))) _).
  - repeat constructor; simpl; intuition discriminate.
  - reflexivity.
  - reflexivity.
  - reflexivity.
Defined.

(** ** The entries of an inferred schema *)

Lemma typeName_in_tags v : In (typeName v) type_tags.
Proof.
  destruct v as [| | b | n | s | items | props]; try (simpl; tauto).
  unfold typeName. cbn [nullish Array_isArray typeof String.eqb Ascii.eqb Bool.eqb].
  destruct (Number_isInteger (Num n)); simpl; tauto.
Qed.

Lemma first_items_tags path : forall items n,
  Forall (fun v => forall prefix,
            Forall (fun kt => In (snd kt) type_tags) (visits v prefix)) items ->
  Forall (fun kt => In (snd kt) type_tags)
         (first_items n (fun item => visits item path) items).
Proof.
  induction items as [|it items IH]; intros [|n] Hall; try constructor.
  inversion Hall as [|? ? Hit Hrest]; subst.
  cbn [first_items]. apply Forall_app. auto.
Qed.

Lemma visits_tags : forall v prefix,
  Forall (fun kt => In (snd kt) type_tags) (visits v prefix).
Proof.
  induction v using value_field_ind; intros prefix;
    try (constructor; [apply typeName_in_tags | constructor]);
    try constructor.
  rewrite visits_Obj.
  induction H as [|[k v] props [Hv Hitems] _ IH]; [constructor|].
  cbn [flat_map]. apply Forall_app. split; [|exact IH]. clear IH.
  unfold visits_field. cbn [fst snd] in *.
  constructor; [apply typeName_in_tags|].
  apply Forall_app. split.
  - destruct (typeof v =? "object")%string; [apply Hv | constructor].
  - destruct v; try constructor.
    apply first_items_tags, Hitems. reflexivity.
Qed.

Lemma replay_entries_sound : forall vs (st : Stats),
  Forall (fun kt => In (snd kt) type_tags) vs ->
  (forall k s, own_get k st = Some s ->
     1 <= List.length (types s) <= count s /\
     Forall (fun t => In t type_tags) (types s)) ->
  forall k s, own_get k (replay vs st) = Some s ->
    1 <= List.length (types s) <= count s /\
    Forall (fun t => In t type_tags) (types s).
Proof.
  induction vs as [|[p t] vs IH]; intros st Hvs Hst; [exact Hst|].
  inversion Hvs as [|? ? Ht Hrest]; subst. cbn [snd] in Ht.
  change (replay ((p, t) :: vs) st) with (replay vs (record p t st)).
  apply IH; [exact Hrest|]. intros k s.
  destruct (string_dec p k) as [<-|Hne].
  - rewrite own_get_record_same. intros [= <-]. cbn [count types].
    pose proof (Set_add_length t (types_at p st)) as Hlen.
    unfold count_at, types_at in *.
    destruct (own_get p st) as [s0|] eqn:E.
    + destruct (Hst p s0 E) as [Hb Hall]. split; [lia|].
      apply Forall_forall. intros x Hx. apply Set_add_In in Hx as [Hx| ->]; auto.
      rewrite Forall_forall in Hall. auto.
    + split; [simpl in *; lia|].
      apply Forall_forall. intros x Hx. apply Set_add_In in Hx as [[]| ->]. exact Ht.
  - rewrite own_get_record_other by assumption. apply Hst.
Qed.

(** Every path of a schema built from payloads profiled without an exception
    was seen at least once and lists at least one type tag, never more tags
    than [present], no tag twice, and only tags of the seven-tag
    vocabulary. *)
Theorem inferred_fields_sound (docs : list value) (stats : Stats) (total : nat)
    (p : string) (f : field) :
  collect_all docs = Some stats ->
  own_get p (buildSchema stats total) = Some f ->
  1 <= List.length (ftypes f) <= present f /\
  NoDup (ftypes f) /\
  Forall (fun t => In t type_tags) (ftypes f).
Proof.
  intros E Hf. apply (buildSchema_get docs) in Hf as (s & Es & ->); [|exact E].
  cbn [present ftypes field_of].
  rewrite (collect_all_Some _ _ E) in Es.
  assert (Hvs : Forall (fun kt => In (snd kt) type_tags)
                  (flat_map (fun d => visits d "") docs)).
  { apply Forall_flat_map. apply Forall_forall. intros d _. apply visits_tags. }
  destruct (replay_entries_sound _ [] Hvs ltac:(discriminate) p s Es) as [Hb Hall].
  split; [exact Hb|]. split; [|exact Hall].
  apply (replay_types_NoDup _ [] ltac:(discriminate) p s Es).
Qed.

Lemma inferred_fields_sound_witness :
  1 <= List.length ["integer"; "string"] <= 3 /\
  NoDup ["integer"; "string"] /\
  Forall (fun t => In t type_tags) ["integer"; "string"].
Proof.
  apply (inferred_fields_sound three_docs
           [("a", mkStat 3 ["integer"; "string"]); ("b", mkStat 1 ["boolean"])]
           3 "a" (mkField 3 false ["integer"; "string"]));
    reflexivity.
Defined.

(** ** One invocation on a sample that is profiled without an exception *)





(** ** One invocation after another *)

Lemma latest_app l x :
  SchemaVersion_latest (l ++ [x]) =
  match SchemaVersion_latest l with
  | None => Some x
  | Some y => if version y <? version x then Some x else Some y
  end.
Proof. unfold SchemaVersion_latest. now rewrite fold_left_app. Qed.

Lemma latest_after_create l total newSchema :
  SchemaVersion_latest
    (l ++ [mkVersion (next_version (SchemaVersion_latest l)) newSchema total "auto"]) =
  Some (mkVersion (next_version (SchemaVersion_latest l)) newSchema total "auto").
Proof.
  rewrite latest_app. destruct (SchemaVersion_latest l) as [y|]; [|reflexivity].
  cbn [next_version version].
  now replace (version y <? version y + 1) with true by (symmetry; apply Nat.ltb_lt; lia).
Qed.

Lemma deepDifferent_same a : deepDifferent a a = false.
Proof. unfold deepDifferent. now rewrite String.eqb_refl. Qed.

(** Idempotence: a second call right after a first one that resolved, with
    no raw record ingested in between, finds nothing to do: it resolves with
    [null] and leaves the database as the first call left it. *)
Theorem infer_twice (unique_version : bool) (sampleSize : nat) (db : DB) :
  let db1 := snd (inferAndMaybeCreateVersion unique_version sampleSize db) in
  forall r,
    fst (inferAndMaybeCreateVersion unique_version sampleSize db) = Resolved r ->
    inferAndMaybeCreateVersion unique_version sampleSize db1 = (Resolved None, db1).
Proof.
  cbv zeta. intros r.
  remember (snd (inferAndMaybeCreateVersion unique_version sampleSize db)) as db1 eqn:E1.
  unfold inferAndMaybeCreateVersion in E1 |- * at 1.
  destruct (List.length (RawRecord_recent sampleSize (rawRecords db)) =? 0) eqn:Elen.
  { cbn [snd] in E1. subst db1. intros _. unfold inferAndMaybeCreateVersion.
    now rewrite Elen. }
  destruct (collect_all _) as [stats|] eqn:Estats; [|discriminate].
  destruct (needs_version _ _) eqn:Eneed.
  - rewrite create_after_latest in E1. cbn [snd] in E1. subst db1. intros _.
    unfold inferAndMaybeCreateVersion. cbn [rawRecords schemaVersions].
    rewrite Elen, Estats, latest_after_create. cbn [needs_version fields].
    now rewrite deepDifferent_same.
  - cbn [snd] in E1. subst db1. intros _. unfold inferAndMaybeCreateVersion.
    now rewrite Elen, Estats, Eneed.
Qed.

Lemma infer_twice_witness :
  inferAndMaybeCreateVersion true 30
    (mkDB [mkRaw (Obj [("a", int 1)]) 5]
          [mkVersion 1 [("a", mkField 1 false ["integer"])] 1 "auto"]) =
  (Resolved None,
   mkDB [mkRaw (Obj [("a", int 1)]) 5]
        [mkVersion 1 [("a", mkField 1 false ["integer"])] 1 "auto"]).
Proof.
  exact (infer_twice true 30 (mkDB [mkRaw (Obj [("a", int 1)]) 5] [])
           (Some (mkVersion 1 [("a", mkField 1 false ["integer"])] 1 "auto"))
           eq_refl).
Defined.

Lemma insert_recent_length r : forall l,
  List.length (insert_recent r l) = S (List.length l).
Proof.
  induction l as [|x l IH]; simpl; auto.
  destruct (ingestedAt x <? ingestedAt r); simpl; auto.
Qed.

Lemma RawRecord_recent_length sampleSize l :
  List.length (RawRecord_recent sampleSize l) = Nat.min sampleSize (List.length l).
Proof.
  unfold RawRecord_recent. rewrite length_firstn. f_equal.
  rewrite <- (Nat.add_0_r (List.length l)).
  change 0 with (List.length (@nil RawRecord)).
  generalize (@nil RawRecord).
  induction l as [|r l IH]; intros acc; simpl; [reflexivity|].
  rewrite IH, insert_recent_length. lia.
Qed.

(** A call that nothing interrupts never touches the raw records.  When it
    rejects because profiling threw, or resolves with [null], the database is
    as it was; when it resolves with a snapshot, exactly that snapshot has
    been appended to the version store, its version is above every stored
    one (so distinct versions stay distinct), its [totalSamples] is the
    smaller of [sampleSize] and the number of raw records, at least 1, and
    its [notes] is [auto]. *)
Theorem infer_appends_one (unique_version : bool) (sampleSize : nat) (db : DB) :
  let r := fst (inferAndMaybeCreateVersion unique_version sampleSize db) in
  let db1 := snd (inferAndMaybeCreateVersion unique_version sampleSize db) in
  rawRecords db1 = rawRecords db /\
  match r with
  | Rejected => db1 = db
  | Resolved None => db1 = db
  | Resolved (Some doc) =>
      schemaVersions db1 = schemaVersions db ++ [doc] /\
      Forall (fun x => version x < version doc) (schemaVersions db) /\
      (NoDup (map version (schemaVersions db)) ->
       NoDup (map version (schemaVersions db1))) /\
      totalSamples doc = Nat.min sampleSize (List.length (rawRecords db)) /\
      1 <= totalSamples doc /\
      notes doc = "auto"
  end.
Proof.
  cbv zeta. unfold inferAndMaybeCreateVersion.
  destruct (List.length (RawRecord_recent sampleSize (rawRecords db)) =? 0) eqn:Elen;
    [cbn; auto|].
  destruct (collect_all _) as [stats|]; [|cbn; auto].
  destruct (needs_version _ _); [|cbn; auto].
  rewrite create_after_latest. cbn [fst snd rawRecords schemaVersions].
  split; [reflexivity|]. split; [reflexivity|].
  assert (Habove : Forall
            (fun x => version x < next_version (SchemaVersion_latest (schemaVersions db)))
            (schemaVersions db)).
  { apply Forall_forall. intros x Hx.
    destruct (SchemaVersion_latest (schemaVersions db)) as [y|] eqn:L.
    - apply latest_max in L as [_ Hall]. specialize (Hall x Hx). simpl. lia.
    - apply latest_none in L. rewrite L in Hx. destruct Hx. }
  cbn [version totalSamples notes].
  split; [exact Habove|]. split; [|split; [apply RawRecord_recent_length|split]].
  - intros Hnd. rewrite map_app. apply NoDup_app; [exact Hnd | | ].
    + constructor; [intros [] | constructor].
    + intros v Hv [E|[]]. apply in_map_iff in Hv as (x & Ex & Hx).
      rewrite Forall_forall in Habove. specialize (Habove x Hx).
      cbn [version] in E. lia.
  - apply Nat.eqb_neq in Elen. lia.
  - reflexivity.
Qed.

Lemma infer_appends_one_witness :
  NoDup (map version [mkVersion 2 [] 1 "auto"]) /\
  NoDup (map version
           (schemaVersions
              (snd (inferAndMaybeCreateVersion true 30
                      (mkDB [mkRaw (Obj [("a", int 1)]) 5] [mkVersion 2 [] 1 "auto"]))))).
Proof.
  assert (Hnd : NoDup (map version [mkVersion 2 [] 1 "auto"]))
    by (repeat constructor; simpl; tauto).
  split; [exact Hnd|].
  exact (proj1 (proj2 (proj2 (proj2 (infer_appends_one true 30
           (mkDB [mkRaw (Obj [("a", int 1)]) 5] [mkVersion 2 [] 1 "auto"]))))) Hnd).
Defined.

Lemma concurrent_creates_without_constraint_witness :
  schemaVersions (mkDB [] [mkVersion 1 [] 1 "auto"; mkVersion 1 [] 1 "auto"]) =
  schemaVersions (mkDB [] []) ++ repeat (mkVersion 1 [] 1 "auto") 2.
Proof.
  apply (concurrent_creates_without_constraint 2 (mkDB [] []) (mkVersion 1 [] 1 "auto")
           (mkDB [] [mkVersion 1 [] 1 "auto"; mkVersion 1 [] 1 "auto"])
           [Settled (Resolved (Some (mkVersion 1 [] 1 "auto")));
            Settled (Resolved (Some (mkVersion 1 [] 1 "auto")))]).
  - eapply steps_more.
    + apply (resume false (mkDB [] []) [] (AwaitCreate (mkVersion 1 [] 1 "auto"))
               [AwaitCreate (mkVersion 1 [] 1 "auto")]); reflexivity.
    + eapply steps_more.
      * apply (resume false (mkDB [] [mkVersion 1 [] 1 "auto"])
                 [Settled (Resolved (Some (mkVersion 1 [] 1 "auto")))]
                 (AwaitCreate (mkVersion 1 [] 1 "auto")) []); reflexivity.
      * apply steps_done.
  - repeat constructor.
Defined.

(** ** An array-valued field *)

Lemma prefix_length : forall a b,
  String.prefix a b = true -> String.length a <= String.length b.
Proof.
  induction a as [|x a IH]; intros [|y b] H; simpl in *; try lia; try discriminate.
  destruct (ascii_dec x y); [|discriminate]. apply IH in H. lia.
Qed.

Lemma append_length a b :
  String.length (a ++ b) = String.length a + String.length b.
Proof. induction a as [|x a IH]; simpl; auto. Qed.

Lemma element_path_not_prefix path : String.prefix (element_path path) path = false.
Proof.
  apply not_true_iff_false. intros H. apply prefix_length in H.
  unfold element_path in H. rewrite append_length in H. simpl in H. lia.
Qed.

Lemma first_items_not_at path p : forall items n,
  truthy path = true ->
  String.prefix path p = false ->
  count_occ string_dec
    (map fst (first_items n (fun item => visits item path) items)) p = 0.
Proof.
  induction items as [|it items IH]; intros [|n] Hp Hout; try reflexivity.
  cbn [first_items]. rewrite map_app, count_occ_app, IH by assumption.
  rewrite Nat.add_0_r. apply count_occ_not_In. intros Hin.
  apply in_map_iff in Hin as (kt & E & Hin).
  pose proof (visits_under_prefix it path Hp) as Hall.
  rewrite Forall_forall in Hall. specialize (Hall kt Hin).
  rewrite E in Hall. congruence.
Qed.

Lemma truthy_element_path path : truthy (element_path path) = true.
Proof. unfold element_path. now destruct path. Qed.

Lemma visits_array_field prefix k items :
  visits_field prefix (k, Arr items) =
  (child_path prefix k, "array") ::
  (leaf_key (child_path prefix k), "array") ::
  first_items 3 (fun item => visits item (element_path (child_path prefix k))) items.
Proof. reflexivity. Qed.

(** A field whose value is an array is recorded twice, whatever the array
    holds: once for the field, at its path, and once more when the nested
    call made for object values reaches the array, at the path again or, when
    the path is empty (a field named by the empty string at the top level),
    at [value].  So when [collect] returns normally, the count at a path that
    is not empty has gone up by 2, not 1, for such a field ([present] of the
    path can so exceed the number of samples); for the empty path the counts
    at the empty key and at [value] have gone up by 1 each. *)
Theorem array_field_counted_twice_always (prefix k : string) (items : list value)
    (rest : list (string * value)) (st st1 : Stats) :
  let path := child_path prefix k in
  collect (Obj ((k, Arr items) :: rest)) st prefix = Some st1 ->
  exists st2,
    collect (Obj rest) st prefix = Some st2 /\
    (truthy path = true -> count_at path st1 = count_at path st2 + 2) /\
    (truthy path = false ->
     count_at path st1 = count_at path st2 + 1 /\
     count_at "value" st1 = count_at "value" st2 + 1).
Proof.
  intros path E. subst path.
  apply collect_Some in E as [Hsafe ->].
  rewrite visits_Obj in Hsafe |- *. cbn [flat_map] in Hsafe |- *.
  rewrite map_app, safe_app in Hsafe. apply andb_true_iff in Hsafe as [_ Hrest].
  exists (replay (visits (Obj rest) prefix) st). split.
  { rewrite collect_replay, visits_Obj, Hrest. reflexivity. }
  rewrite visits_Obj.
  assert (Hcount : forall p,
            String.prefix (element_path (child_path prefix k)) p = false ->
            count_at p (replay (visits_field prefix (k, Arr items) ++
                                flat_map (visits_field prefix) rest) st) =
            count_at p (replay (flat_map (visits_field prefix) rest) st) +
            ((if string_dec (child_path prefix k) p then 1 else 0) +
             (if string_dec (leaf_key (child_path prefix k)) p then 1 else 0))).
  { intros p Hout. rewrite !count_at_replay, map_app, count_occ_app.
    rewrite visits_array_field. cbn [map fst count_occ].
    rewrite first_items_not_at by (auto using truthy_element_path).
    destruct (string_dec (child_path prefix k) p),
             (string_dec (leaf_key (child_path prefix k)) p); lia. }
  split.
  - intros Hp. rewrite Hcount by apply element_path_not_prefix.
    rewrite leaf_key_truthy by assumption.
    destruct (string_dec _ _); [lia | contradiction].
  - intros Hp.
    assert (Hempty : child_path prefix k = ""%string)
      by (destruct (child_path prefix k); [reflexivity | discriminate Hp]).
    rewrite Hempty in *. split.
    + rewrite Hcount by reflexivity. reflexivity.
    + rewrite Hcount by reflexivity. reflexivity.
Qed.

Lemma array_field_counted_twice_always_witness :
  exists st2,
    collect (Obj [("id", int 1)]) [] "" = Some st2 /\
    count_at "tags" [("tags", mkStat 2 ["array"]); ("tags[]", mkStat 1 ["string"]);
                     ("id", mkStat 1 ["integer"])] =
    count_at "tags" st2 + 2.
Proof.
  destruct (array_field_counted_twice_always "" "tags" [Str "x"] [("id", int 1)] []
              [("tags", mkStat 2 ["array"]); ("tags[]", mkStat 1 ["string"]);
               ("id", mkStat 1 ["integer"])] eq_refl)
    as (st2 & E & Htwo & _).
  exists st2. split; [exact E | exact (Htwo eq_refl)].
Defined.

(** ** [diffSchemas] *)

Lemma append_empty_r (s : string) : (s ++ "")%string = s.
Proof. induction s as [|c s IH]; simpl; [reflexivity | now rewrite IH]. Qed.

Lemma JSON_stringify_field_inj f1 f2 :
  JSON_stringify_field f1 = JSON_stringify_field f2 -> f1 = f2.
Proof.
  intros H.
  apply (JSON_stringify_field_inj_app f1 f2 "" "").
  now rewrite !append_empty_r.
Qed.

Lemma entries_differ fa fb :
  negb (String.eqb (JSON_stringify_entry (Some fa)) (JSON_stringify_entry (Some fb))) = true
  <-> fa <> fb.
Proof.
  rewrite negb_true_iff. cbn [JSON_stringify_entry]. split.
  - intros H E. subst fb. now rewrite String.eqb_refl in H.
  - intros Hne. apply String.eqb_neq. intros E.
    apply Hne, JSON_stringify_field_inj, E.
Qed.

Lemma own_get_some_In {V : Type} (o : obj V) k :
  In k (Object_keys o) <-> exists v, own_get k o = Some v.
Proof.
  rewrite own_get_In. destruct (own_get k o) as [v|].
  - split; [eauto | discriminate].
  - split; [congruence | intros [v E]; discriminate E].
Qed.

Lemma added_In A B k :
  In k (added (diffSchemas A B)) <-> own_get k A = None /\ own_get k B <> None.
Proof.
  cbn [diffSchemas added]. rewrite filter_In, negb_true_iff.
  rewrite <- not_true_iff_false, includes_In, !own_get_In.
  destruct (own_get k A); intuition congruence.
Qed.

Lemma changed_In A B k :
  In k (changed (diffSchemas A B)) <->
  exists fa fb, own_get k A = Some fa /\ own_get k B = Some fb /\ fa <> fb.
Proof.
  cbn [diffSchemas changed]. rewrite !filter_In, includes_In, !own_get_some_In. split.
  - intros (([fa Ea] & [fb Eb]) & Hd). rewrite Ea, Eb in Hd.
    apply entries_differ in Hd. eauto.
  - intros (fa & fb & Ea & Eb & Hne). rewrite Ea, Eb.
    split; [eauto | now apply entries_differ].
Qed.

(** [diffSchemas] sorts every path into at most one list: [added] holds the
    paths only the second map has, [removed] the paths only the first map
    has, and [changed] the paths both have with entries that differ in
    [present], [optional] or the sequence of [types]; a path with the same
    entry in both maps is in none. *)
Theorem diffSchemas_classifies (A B : Fields) (k : string) :
  (In k (added (diffSchemas A B)) <-> own_get k A = None /\ own_get k B <> None) /\
  (In k (removed (diffSchemas A B)) <-> own_get k A <> None /\ own_get k B = None) /\
  (In k (changed (diffSchemas A B)) <->
     exists fa fb, own_get k A = Some fa /\ own_get k B = Some fb /\ fa <> fb).
Proof.
  split; [apply added_In|]. split; [|apply changed_In].
  change (removed (diffSchemas A B)) with (added (diffSchemas B A)).
  rewrite added_In. tauto.
Qed.

Lemma diff_empty_lookup A B :
  diffSchemas A B = mkDiff [] [] [] <-> forall k, own_get k A = own_get k B.
Proof.
  split.
  - intros E k.
    pose proof (added_In A B k) as Ha. pose proof (added_In B A k) as Hr.
    pose proof (changed_In A B k) as Hc.
    change (added (diffSchemas B A)) with (removed (diffSchemas A B)) in Hr.
    rewrite E in Ha, Hr, Hc. cbn [added removed changed In] in *.
    destruct (own_get k A) as [fa|] eqn:Ea, (own_get k B) as [fb|] eqn:Eb; auto.
    + f_equal.
      destruct (String.eqb (JSON_stringify_field fa) (JSON_stringify_field fb)) eqn:Es.
      * apply String.eqb_eq in Es. now apply JSON_stringify_field_inj.
      * exfalso. apply Hc. exists fa, fb. repeat split; auto.
        intros ->. now rewrite String.eqb_refl in Es.
    + exfalso. apply Hr. split; congruence.
    + exfalso. apply Ha. split; congruence.
  - intros Hsame.
    assert (Hnil : forall l : list string, (forall k, ~ In k l) -> l = []).
    { intros [|x l] H; [reflexivity|]. elim (H x). now left. }
    assert (Ha : added (diffSchemas A B) = []).
    { apply Hnil. intros k. rewrite added_In, Hsame. tauto. }
    assert (Hr : removed (diffSchemas A B) = []).
    { apply Hnil. intros k.
      change (removed (diffSchemas A B)) with (added (diffSchemas B A)).
      rewrite added_In, Hsame. tauto. }
    assert (Hc : changed (diffSchemas A B) = []).
    { apply Hnil. intros k. rewrite changed_In, Hsame.
      intros (fa & fb & Ea & Eb & Hne). congruence. }
    destruct (diffSchemas A B) as [a r c]. cbn in Ha, Hr, Hc. now subst.
Qed.

(** The diff of two field maps is empty exactly when every path has the same
    entry, or none, in both; so the diff of a map with itself is empty.  An
    empty diff does not mean that [deepDifferent] sees no difference: two maps
    that list the same two entries in opposite orders have an empty diff and
    are [deepDifferent]. *)
Theorem diffSchemas_empty_iff :
  (forall A B : Fields,
     diffSchemas A B = mkDiff [] [] [] <-> forall k, own_get k A = own_get k B) /\
  (forall A : Fields, diffSchemas A A = mkDiff [] [] []) /\
  (forall k1 k2 f1 f2, k1 <> k2 ->
     diffSchemas [(k1, f1); (k2, f2)] [(k2, f2); (k1, f1)] = mkDiff [] [] [] /\
     deepDifferent [(k1, f1); (k2, f2)] [(k2, f2); (k1, f1)] = true).
Proof.
  split; [exact diff_empty_lookup|]. split.
  - intros A. now apply diff_empty_lookup.
  - intros k1 k2 f1 f2 Hne. split.
    + apply diff_empty_lookup. intros k. cbn [own_get].
      destruct (String.eqb k1 k) eqn:E1, (String.eqb k2 k) eqn:E2; try reflexivity.
      apply String.eqb_eq in E1, E2. congruence.
    + unfold deepDifferent. apply negb_true_iff, String.eqb_neq. intros E.
      apply JSON_stringify_inj in E. injection E as E _. contradiction.
Qed.

Lemma diffSchemas_empty_iff_witness :
  diffSchemas [("a", mkField 1 false ["integer"]); ("b", mkField 1 false ["string"])]
              [("b", mkField 1 false ["string"]); ("a", mkField 1 false ["integer"])] =
    mkDiff [] [] [] /\
  deepDifferent [("a", mkField 1 false ["integer"]); ("b", mkField 1 false ["string"])]
                [("b", mkField 1 false ["string"]); ("a", mkField 1 false ["integer"])] = true.
Proof.
  apply (proj2 (proj2 diffSchemas_empty_iff) "a" "b").
  discriminate.
Defined.

(** ** [escapeHtml] *)

Lemma chars_append a b :
  list_ascii_of_string (a ++ b) = list_ascii_of_string a ++ list_ascii_of_string b.
Proof. induction a as [|c a IH]; simpl; [reflexivity | now rewrite IH]. Qed.

Lemma html_char_markup_free c :
  forallb (fun x => negb (existsb (Ascii.eqb x) ["<"; ">"; dquote; "'"; "`"]%char))
    (list_ascii_of_string
       (if is_html_special c then html_replacement c else String c "")) = true.
Proof. destruct c as [[] [] [] [] [] [] [] []]; reflexivity. Qed.

Lemma replace_html_markup_free : forall s,
  forallb (fun x => negb (existsb (Ascii.eqb x) ["<"; ">"; dquote; "'"; "`"]%char))
    (list_ascii_of_string (replace_html_special s)) = true.
Proof.
  induction s as [|c s IH]; [reflexivity|].
  cbn [replace_html_special]. rewrite chars_append, forallb_app, IH.
  now rewrite html_char_markup_free.
Qed.

(** The text [escapeHtml] returns for a text holds no angle bracket, no quote
    of either kind and no backtick. *)
Theorem escapeHtml_markup_free (text : string) :
  exists out,
    escapeHtml (Str text) = Str out /\
    Forall (fun c => ~ In c ["<"; ">"; dquote; "'"; "`"]%char) (list_ascii_of_string out).
Proof.
  exists (replace_html_special text). split; [reflexivity|].
  apply Forall_forall. intros c Hin Hc.
  pose proof (replace_html_markup_free text) as H.
  rewrite forallb_forall in H. specialize (H c Hin).
  apply negb_true_iff in H.
  assert (existsb (Ascii.eqb c) ["<"; ">"; dquote; "'"; "`"]%char = true); [|congruence].
  apply existsb_exists. exists c. split; [exact Hc | apply Ascii.eqb_refl].
Qed.

Lemma unescape_html_escape c r :
  unescape_html_char
    ((if is_html_special c then html_replacement c else String c "") ++ r) =
  Some (c, r).
Proof. destruct c as [[] [] [] [] [] [] [] []]; reflexivity. Qed.

Lemma html_char_not_empty c r :
  ((if is_html_special c then html_replacement c else String c "") ++ r)%string <> "".
Proof.
  intros E. apply (f_equal unescape_html_char) in E.
  rewrite unescape_html_escape in E. discriminate E.
Qed.

Lemma replace_html_inj : forall s1 s2,
  replace_html_special s1 = replace_html_special s2 -> s1 = s2.
Proof.
  induction s1 as [|c1 s1 IH]; intros [|c2 s2] H; cbn [replace_html_special] in H.
  - reflexivity.
  - symmetry in H. now apply html_char_not_empty in H.
  - now apply html_char_not_empty in H.
  - apply (f_equal unescape_html_char) in H. rewrite !unescape_html_escape in H.
    injection H as -> H. now rewrite (IH _ H).
Qed.

(** [escapeHtml] loses nothing: two values with the same result are the same
    value. *)
Theorem escapeHtml_injective (v1 v2 : value) :
  escapeHtml v1 = escapeHtml v2 -> v1 = v2.
Proof.
  destruct v1, v2; cbn; intros H; try discriminate H; try exact H.
  injection H as H. now rewrite (replace_html_inj _ _ H).
Qed.

Lemma escapeHtml_injective_witness : Str "a<b" = Str "a<b".
Proof. apply (escapeHtml_injective (Str "a<b") (Str "a<b")). reflexivity. Defined.

Lemma html_char_length c :
  String.length (if is_html_special c then html_replacement c else String c "") =
  if is_html_special c then String.length (html_replacement c) else 1.
Proof. now destruct (is_html_special c). Qed.

Lemma html_replacement_long c :
  is_html_special c = true -> 4 <= String.length (html_replacement c).
Proof. destruct c as [[] [] [] [] [] [] [] []]; intros H; try discriminate H; simpl; lia. Qed.

Lemma replace_html_length : forall s,
  String.length s <= String.length (replace_html_special s) /\
  (String.length (replace_html_special s) = String.length s -> html_plain s = true).
Proof.
  induction s as [|c s [IHle IHeq]]; [split; auto|].
  cbn [replace_html_special]. rewrite append_length, html_char_length.
  unfold html_plain. cbn [list_ascii_of_string forallb String.length].
  fold (html_plain s).
  destruct (is_html_special c) eqn:E.
  - apply html_replacement_long in E. split; lia.
  - split; [lia|]. intros H. simpl. apply IHeq. lia.
Qed.

Lemma replace_html_plain : forall s,
  html_plain s = true -> replace_html_special s = s.
Proof.
  induction s as [|c s IH]; [reflexivity|].
  unfold html_plain. cbn [list_ascii_of_string forallb]. fold (html_plain s).
  intros H. apply andb_true_iff in H as [Hc Hs]. apply negb_true_iff in Hc.
  cbn [replace_html_special]. now rewrite Hc, (IH Hs).
Qed.

Lemma html_special_leaves_amp c :
  is_html_special c = true -> html_plain (html_replacement c) = false.
Proof. destruct c as [[] [] [] [] [] [] [] []]; intros H; try discriminate H; reflexivity. Qed.

Lemma html_plain_append a b : html_plain (a ++ b) = html_plain a && html_plain b.
Proof. unfold html_plain. now rewrite chars_append, forallb_app. Qed.

Lemma replace_html_plain_back : forall s,
  html_plain (replace_html_special s) = true -> html_plain s = true.
Proof.
  induction s as [|c s IH]; [reflexivity|].
  cbn [replace_html_special]. rewrite html_plain_append.
  unfold html_plain at 3. cbn [list_ascii_of_string forallb]. fold (html_plain s).
  intros H. apply andb_true_iff in H as [Hc Hs].
  destruct (is_html_special c) eqn:E.
  - now rewrite html_special_leaves_amp in Hc.
  - simpl. auto.
Qed.

(** [escapeHtml] returns what is not a string as it is, never shortens a
    text, and returns a text unchanged exactly when the text holds none of
    the six characters; only on such texts is escaping twice the same as
    escaping once (every replacement brings an ampersand, which a second
    pass escapes again). *)
Theorem escapeHtml_fixed_points :
  (forall v, (forall text, v <> Str text) -> escapeHtml v = v) /\
  (forall text,
     String.length text <= String.length (replace_html_special text) /\
     (escapeHtml (Str text) = Str text <-> html_plain text = true) /\
     (escapeHtml (escapeHtml (Str text)) = escapeHtml (Str text) <->
      html_plain text = true)).
Proof.
  assert (Hfix : forall text, replace_html_special text = text <-> html_plain text = true).
  { intros text. split; [|apply replace_html_plain].
    intros E. apply replace_html_length. now rewrite E. }
  split.
  - intros v Hv. destruct v; try reflexivity. now elim (Hv s).
  - intros text. split; [apply replace_html_length|]. split.
    + cbn. rewrite <- Hfix. split; [now intros [= ->] | now intros ->].
    + cbn. split.
      * intros [= E]. apply Hfix in E. now apply replace_html_plain_back.
      * intros H. apply Hfix in H. now rewrite !H.
Qed.

Lemma escapeHtml_fixed_points_witness : escapeHtml (Num NaN) = Num NaN.
Proof. apply (proj1 escapeHtml_fixed_points (Num NaN)). discriminate. Defined.

(** ** [clean] *)

Lemma spaced_replace : forall s b, spaced b (replace_spaces b s) = true.
Proof.
  induction s as [|c s IH]; intros b; [reflexivity|].
  cbn [replace_spaces]. destruct (is_space c) eqn:E.
  - destruct b; [apply IH|].
    cbn [spaced]. change (is_space " ") with true. cbv iota.
    now rewrite IH.
  - cbn [spaced]. rewrite E. apply IH.
Qed.

Lemma spaced_weaken b t : spaced b t = true -> spaced false t = true.
Proof.
  destruct t as [|c r]; [reflexivity|]. cbn [spaced].
  destruct (is_space c); [|auto].
  intros H. apply andb_true_iff in H as [H1 H2]. apply andb_true_iff in H1 as [H0 _].
  now rewrite H0, H2.
Qed.

Lemma trimStart_spaced t : spaced true t = true -> trimStart t = t.
Proof.
  destruct t as [|c r]; [reflexivity|]. cbn [spaced trimStart].
  destruct (is_space c); [|reflexivity].
  rewrite andb_false_r. discriminate.
Qed.

Lemma spaced_trimStart b t : spaced b t = true -> spaced true (trimStart t) = true.
Proof.
  destruct t as [|c r]; [reflexivity|]. cbn [spaced trimStart].
  destruct (is_space c) eqn:E.
  - intros H. apply andb_true_iff in H as [_ H].
    now rewrite (trimStart_spaced _ H).
  - intros H. cbn [spaced]. now rewrite E.
Qed.

Lemma trimEnd_no_space : forall t, ends_with_space (trimEnd t) = false.
Proof.
  induction t as [|c r IH]; [reflexivity|]. cbn [trimEnd].
  destruct (trimEnd r) as [|c' r'] eqn:E.
  - destruct (is_space c) eqn:Ec; [reflexivity|]. cbn. exact Ec.
  - exact IH.
Qed.

Lemma spaced_trimEnd : forall t b, spaced b t = true -> spaced b (trimEnd t) = true.
Proof.
  induction t as [|c r IH]; intros b H; [reflexivity|]. cbn [trimEnd].
  cbn [spaced] in H.
  destruct (trimEnd r) as [|c' r'] eqn:E.
  - destruct (is_space c) eqn:Ec; [reflexivity|]. cbn [spaced]. now rewrite Ec.
  - rewrite <- E in *. cbn [spaced]. destruct (is_space c).
    + apply andb_true_iff in H as [H1 H2]. rewrite H1. cbn [andb]. now apply IH.
    + now apply IH.
Qed.

Lemma replace_spaced : forall t b, spaced b t = true -> replace_spaces b t = t.
Proof.
  induction t as [|c r IH]; intros b H; [reflexivity|].
  cbn [spaced] in H. cbn [replace_spaces]. destruct (is_space c).
  - apply andb_true_iff in H as [H1 H2]. apply andb_true_iff in H1 as [Hc Hb].
    apply Ascii.eqb_eq in Hc. apply negb_true_iff in Hb. subst c b.
    now rewrite (IH _ H2).
  - now rewrite (IH _ H).
Qed.

Lemma trimEnd_fixed : forall t, ends_with_space t = false -> trimEnd t = t.
Proof.
  induction t as [|c r IH]; intros H; [reflexivity|].
  cbn [trimEnd]. destruct r as [|c' r'].
  - cbn in *. now rewrite H.
  - cbn [ends_with_space] in H. now rewrite (IH H).
Qed.

Lemma clean_is_tidy s : tidy (clean s) = true.
Proof.
  unfold tidy, clean, trim.
  rewrite trimEnd_no_space, andb_true_r.
  apply spaced_trimEnd, (spaced_trimStart false), spaced_replace.
Qed.

Lemma clean_of_tidy t : tidy t = true -> clean t = t.
Proof.
  unfold tidy, clean, trim. intros H. apply andb_true_iff in H as [Hs He].
  apply negb_true_iff in He.
  rewrite (replace_spaced _ _ (spaced_weaken _ _ Hs)).
  now rewrite (trimStart_spaced _ Hs), (trimEnd_fixed _ He).
Qed.

(** [clean] normalizes the white space of a text: in its result every white
    space is a single space between two other characters; a text of that
    form is returned as it is; so cleaning twice is cleaning once. *)
Theorem clean_tidies (text : string) :
  tidy (clean text) = true /\
  (tidy text = true -> clean text = text) /\
  clean (clean text) = clean text.
Proof.
  split; [apply clean_is_tidy|]. split; [apply clean_of_tidy|].
  apply clean_of_tidy, clean_is_tidy.
Qed.

Lemma clean_tidies_witness : clean "schema flow" = "schema flow".
Proof. exact (proj1 (proj2 (clean_tidies "schema flow")) eq_refl). Defined.

Lemma letters_replace : forall s b, letters (replace_spaces b s) = letters s.
Proof.
  unfold letters. induction s as [|c s IH]; intros b; [reflexivity|].
  cbn [replace_spaces list_ascii_of_string filter]. destruct (is_space c) eqn:E; cbn [negb].
  - destruct b; [apply IH|].
    cbn [list_ascii_of_string filter]. change (is_space " ") with true. cbn [negb]. apply IH.
  - cbn [list_ascii_of_string filter]. rewrite E. cbn [negb]. now rewrite IH.
Qed.

Lemma letters_trimStart : forall s, letters (trimStart s) = letters s.
Proof.
  unfold letters. induction s as [|c s IH]; [reflexivity|].
  cbn [trimStart]. destruct (is_space c) eqn:E; [|reflexivity].
  cbn [list_ascii_of_string filter]. rewrite E. cbn [negb]. exact IH.
Qed.

Lemma letters_trimEnd : forall s, letters (trimEnd s) = letters s.
Proof.
  unfold letters. induction s as [|c s IH]; [reflexivity|].
  cbn [trimEnd list_ascii_of_string filter].
  destruct (trimEnd s) as [|c' r'] eqn:E.
  - rewrite <- IH. cbn [list_ascii_of_string filter].
    destruct (is_space c) eqn:Ec; cbn [negb list_ascii_of_string filter];
      [reflexivity | now rewrite Ec].
  - rewrite <- IH. reflexivity.
Qed.

Lemma length_replace : forall s b,
  String.length (replace_spaces b s) <= String.length s.
Proof.
  induction s as [|c s IH]; intros b; [auto|]. cbn [replace_spaces].
  pose proof (IH true). pose proof (IH false).
  destruct (is_space c); [destruct b|]; cbn [String.length]; lia.
Qed.

Lemma length_trimStart : forall s, String.length (trimStart s) <= String.length s.
Proof.
  induction s as [|c s IH]; [auto|]. cbn [trimStart].
  destruct (is_space c); cbn [String.length]; lia.
Qed.

Lemma length_trimEnd : forall s, String.length (trimEnd s) <= String.length s.
Proof.
  induction s as [|c s IH]; [auto|]. cbn [trimEnd].
  destruct (trimEnd s) as [|c' r']; [destruct (is_space c)|]; cbn [String.length] in *; lia.
Qed.

(** [clean] removes and replaces white space only: the other characters of
    the text are all kept, in their order, and the text never gets longer. *)
Theorem clean_keeps_letters (text : string) :
  letters (clean text) = letters text /\
  String.length (clean text) <= String.length text.
Proof.
  unfold clean, trim. split.
  - now rewrite letters_trimEnd, letters_trimStart, letters_replace.
  - pose proof (length_trimEnd (trimStart (replace_spaces false text))).
    pose proof (length_trimStart (replace_spaces false text)).
    pose proof (length_replace text false). lia.
Qed.

(** ** [wordCount] *)

Lemma count_words_replace : forall s b p,
  (b = true -> p = true) ->
  count_words p (replace_spaces b s) = count_words p s.
Proof.
  induction s as [|c s IH]; intros b p Hbp; [reflexivity|].
  cbn [replace_spaces count_words]. destruct (is_space c) eqn:E.
  - destruct b.
    + rewrite (Hbp eq_refl). now apply IH.
    + cbn [count_words]. change (is_space " ") with true. cbv iota. now apply IH.
  - cbn [count_words]. rewrite E. f_equal. apply IH. discriminate.
Qed.

Lemma count_words_trimStart : forall s,
  count_words true (trimStart s) = count_words true s.
Proof.
  induction s as [|c s IH]; [reflexivity|]. cbn [trimStart count_words].
  destruct (is_space c) eqn:E; [exact IH|]. cbn [count_words]. now rewrite E.
Qed.

Lemma count_words_trimEnd : forall s p,
  count_words p (trimEnd s) = count_words p s.
Proof.
  induction s as [|c s IH]; intros p; [reflexivity|].
  cbn [trimEnd count_words]. destruct (trimEnd s) as [|c' r'] eqn:E.
  - destruct (is_space c) eqn:Ec.
    + rewrite <- IH. reflexivity.
    + cbn [count_words]. rewrite Ec, <- IH. reflexivity.
  - rewrite <- E in *. cbn [count_words]. destruct (is_space c); now rewrite IH.
Qed.

Lemma split_spaces_positive : forall t b piece,
  1 <= List.length (split_spaces b piece t).
Proof.
  induction t as [|c r IH]; intros b piece; [simpl; lia|].
  cbn [split_spaces]. destruct (is_space c); [destruct b|]; cbn [List.length];
    auto with arith.
Qed.

Lemma split_spaces_count : forall t p piece,
  spaced p t = true -> ends_with_space t = false -> (p = true -> t <> "") ->
  List.length (split_spaces p piece t) = count_words p t + (if p then 0 else 1).
Proof.
  induction t as [|c r IH]; intros p piece Hs He Hne.
  - destruct p; [now elim (Hne eq_refl) | reflexivity].
  - cbn [spaced] in Hs. cbn [split_spaces count_words].
    destruct (is_space c) eqn:E.
    + apply andb_true_iff in Hs as [H1 H2]. apply andb_true_iff in H1 as [_ Hp].
      apply negb_true_iff in Hp. subst p.
      destruct r as [|c' r'].
      * cbn in He. congruence.
      * cbn [List.length]. rewrite IH; [lia | exact H2 | exact He | discriminate].
    + rewrite IH; [destruct p; lia | exact Hs | | discriminate].
      destruct r; [reflexivity | exact He].
Qed.

Lemma wordCount_tidy t :
  tidy t = true -> t <> "" -> wordCount t = count_words true t /\ 1 <= count_words true t.
Proof.
  unfold tidy, wordCount. intros H Hne. apply andb_true_iff in H as [Hs He].
  apply negb_true_iff in He.
  destruct t as [|c r]; [contradiction|].
  assert (Ec : is_space c = false).
  { cbn [spaced] in Hs. destruct (is_space c); [|reflexivity].
    now rewrite andb_false_r in Hs. }
  split.
  - rewrite <- (Nat.add_0_r (count_words true (String c r))).
    rewrite <- (split_spaces_count (String c r) true "" Hs He ltac:(discriminate)).
    cbn [split_spaces]. now rewrite Ec.
  - cbn [count_words]. rewrite Ec. lia.
Qed.

(** [wordCount] of a cleaned text is the number of words of the text, but 1
    when the text has no word at all (the empty text splits into one empty
    piece); it is never 0. *)
Theorem wordCount_of_clean (text : string) :
  wordCount (clean text) = Nat.max 1 (count_words true text) /\
  (letters text = [] -> clean text = "" /\ wordCount (clean text) = 1) /\
  forall t, 1 <= wordCount t.
Proof.
  assert (Hcw : count_words true (clean text) = count_words true text).
  { unfold clean, trim.
    rewrite count_words_trimEnd, count_words_trimStart.
    now apply count_words_replace. }
  assert (Hmain : wordCount (clean text) = Nat.max 1 (count_words true text)).
  { destruct (clean text) as [|c r] eqn:E.
    - rewrite <- Hcw. reflexivity.
    - destruct (wordCount_tidy (clean text) (clean_is_tidy text)) as [Hw Hpos];
        [rewrite E; discriminate|].
      rewrite E in Hw, Hpos. rewrite Hw, <- Hcw. lia. }
  split; [exact Hmain|]. split; [|intros t; apply split_spaces_positive].
  intros Hnone.
  assert (Eempty : clean text = "").
  { destruct (clean text) as [|c r] eqn:E; [reflexivity|].
    pose proof (clean_is_tidy text) as Ht. rewrite E in Ht.
    assert (Hl : letters (String c r) = [])
      by (rewrite <- E; unfold clean, trim;
          now rewrite letters_trimEnd, letters_trimStart, letters_replace).
    unfold tidy in Ht. apply andb_true_iff in Ht as [Hs _].
    cbn [spaced] in Hs. unfold letters in Hl. cbn [list_ascii_of_string filter] in Hl.
    destruct (is_space c); [now rewrite andb_false_r in Hs | discriminate Hl]. }
  split; [exact Eempty|]. now rewrite Eempty.
Qed.

Lemma wordCount_of_clean_witness :
  clean (String "009"%char "  ") = "" /\ wordCount (clean (String "009"%char "  ")) = 1.
Proof.
  exact (proj1 (proj2 (wordCount_of_clean (String "009"%char "  "))) eq_refl).
Defined.


(** ** Extracted payloads in the schema *)

Lemma typeName_int z : typeName (int z) = "integer".
Proof.
  unfold typeName, int. cbn [nullish Array_isArray typeof String.eqb Ascii.eqb Bool.eqb].
  cbn [Number_isInteger inject_Z Qnum Qden]. now rewrite Z.mod_1_r.
Qed.

Lemma visits_plain_text txt :
  visits (plain_text_payload txt) "" =
  [("text", "string"); ("length", "integer"); ("wordCount", "integer")].
Proof.
  unfold plain_text_payload. rewrite visits_Obj. cbn [flat_map].
  unfold visits_field. cbn [fst snd]. rewrite !typeName_int. reflexivity.
Qed.

Lemma collect_plain_text_first txt :
  collect (plain_text_payload txt) [] "" =
  Some [("text", mkStat 1 ["string"]); ("length", mkStat 1 ["integer"]);
        ("wordCount", mkStat 1 ["integer"])].
Proof. rewrite collect_replay, visits_plain_text. reflexivity. Qed.

Lemma collect_plain_text_next txt n :
  collect (plain_text_payload txt)
    [("text", mkStat n ["string"]); ("length", mkStat n ["integer"]);
     ("wordCount", mkStat n ["integer"])] "" =
  Some [("text", mkStat (S n) ["string"]); ("length", mkStat (S n) ["integer"]);
        ("wordCount", mkStat (S n) ["integer"])].
Proof. rewrite collect_replay, visits_plain_text. reflexivity. Qed.

Lemma collect_plain_texts : forall txts n,
  for_each (fun st p => collect p st "") (map plain_text_payload txts)
    [("text", mkStat n ["string"]); ("length", mkStat n ["integer"]);
     ("wordCount", mkStat n ["integer"])] =
  Some [("text", mkStat (n + List.length txts) ["string"]);
        ("length", mkStat (n + List.length txts) ["integer"]);
        ("wordCount", mkStat (n + List.length txts) ["integer"])].
Proof.
  induction txts as [|t txts IH]; intros n; cbn [map for_each List.length].
  - now rewrite Nat.add_0_r.
  - rewrite collect_plain_text_next, IH. now rewrite Nat.add_succ_r.
Qed.

(** A sample made only of plain-text payloads is profiled without an
    exception and always infers the same schema: the three paths [text],
    [length] and [wordCount], each present in every sample, none optional,
    typed string, integer and integer. *)
Theorem plain_text_schema (txts : list string) :
  txts <> [] ->
  exists stats,
    collect_all (map plain_text_payload txts) = Some stats /\
    buildSchema stats (List.length txts) =
    [("text", mkField (List.length txts) false ["string"]);
     ("length", mkField (List.length txts) false ["integer"]);
     ("wordCount", mkField (List.length txts) false ["integer"])].
Proof.
  destruct txts as [|t txts]; [contradiction|]. intros _.
  unfold collect_all. cbn [map for_each].
  rewrite collect_plain_text_first, collect_plain_texts.
  eexists. split; [reflexivity|].
  cbn [List.length Nat.add]. unfold buildSchema.
  cbn [fold_left own_set fst snd String.eqb Ascii.eqb Bool.eqb].
  unfold field_of. cbn [count types]. now rewrite Nat.ltb_irrefl.
Qed.

Lemma plain_text_schema_witness :
  exists stats,
    collect_all (map plain_text_payload ["a b"; ""]) = Some stats /\
    buildSchema stats 2 =
    [("text", mkField 2 false ["string"]);
     ("length", mkField 2 false ["integer"]);
     ("wordCount", mkField 2 false ["integer"])].
Proof. apply (plain_text_schema ["a b"; ""]). discriminate. Defined.

(** A failed extraction is stored like any other upload, wrapped under
    [_extractedText], and enters the inferred schema: when a sample that
    holds one is profiled without an exception, the schema built from it
    lists the paths [_extractedText], typed object, and
    [_extractedText.error], typed string.  A sample with nothing else is
    profiled without an exception. *)
Theorem failed_extraction_in_schema (docs : list value) (stats : Stats) (total : nat)
    (message : string) :
  (exists stats1,
     collect_all [payloadToStore (extraction_error message)] = Some stats1) /\
  (In (payloadToStore (extraction_error message)) docs ->
   collect_all docs = Some stats ->
   (exists f, own_get "_extractedText" (buildSchema stats total) = Some f /\
              In "object" (ftypes f)) /\
   (exists f, own_get "_extractedText.error" (buildSchema stats total) = Some f /\
              In "string" (ftypes f))).
Proof.
  split; [eexists; reflexivity|].
  intros Hin E.
  assert (Hfound : forall p t,
            In (p, t) (visits (payloadToStore (extraction_error message)) "") ->
            exists f, own_get p (buildSchema stats total) = Some f /\
                      In t (ftypes f)).
  { intros p t Hv.
    assert (Ht : In t (types_at p stats)).
    { rewrite (collect_all_Some _ _ E). apply replay_types_In. right.
      apply in_flat_map. eauto. }
    rewrite buildSchema_map by apply (collect_all_NoDup docs), E. rewrite own_get_map.
    unfold types_at in Ht. destruct (own_get p stats) as [s|]; [|destruct Ht].
    exists (field_of total s). split; [reflexivity | exact Ht]. }
  split; apply Hfound; simpl; auto.
Qed.

Lemma failed_extraction_in_schema_witness :
  exists f,
    own_get "_extractedText.error"
      (buildSchema
         [("a", mkStat 1 ["integer"]); ("_extractedText", mkStat 1 ["object"]);
          ("_extractedText.error", mkStat 1 ["string"])] 2) = Some f /\
    In "string" (ftypes f).
Proof.
  refine (proj2 (proj2 (failed_extraction_in_schema
           [Obj [("a", int 1)]; payloadToStore (extraction_error "Unexpected token")]
           [("a", mkStat 1 ["integer"]); ("_extractedText", mkStat 1 ["object"]);
            ("_extractedText.error", mkStat 1 ["string"])]
           2 "Unexpected token") _ _)).
  - simpl. auto.
  - reflexivity.
Defined.
